(** * csvutil merge: adjacent-row merging of CSV rows

    A shallow embedding of [op_merge] of [bin/csvutil.py] and of the
    closures it defines, with the properties of the merge engine.

    Python values are modelled as follows.
    - A field is a [string]; a row is a [list string].
    - An uncaught exception is a [pyexn]; a computation that may raise is a
      [result].
    - The closure variables [cmp_line] and [aggregate_values] and the text
      written to standard output form the state [mstate], threaded by the
      monad [M].  A raise keeps the state reached so far, so what was
      printed before an exception stays printed.
    - [sfield_set] is a [gset nat], [aggregate_values] a
      [gmap nat (list string)].
    - Python's [float], [str] of a float and the numeric functions of the
      [statistics] module and the builtins are not part of the repository:
      they are the operations of the interface [PyFloat].
    - [csv.reader] and [str.strip] are not part of the repository either:
      the rows of an input are given, and where a run reads text, the text
      is read through the interface [CsvReader]. *)

From Stdlib Require Import QArith Qcanon Ascii String.
From stdpp Require Import gmap strings list pretty sorting.

Open Scope string_scope.
Open Scope list_scope.

(** ** Exceptions and results *)

Inductive pyexn : Type :=
  | IndexError
  | KeyError
  | ValueError
  | TypeError
  | AttributeError
  | StatisticsError
  | SystemExit (code : Z).

Inductive result (A : Type) : Type :=
  | Ok (a : A)
  | Raise (e : pyexn).
Arguments Ok {A} a.
Arguments Raise {A} e.

Definition rbind {A B} (r : result A) (k : A → result B) : result B :=
  match r with
  | Ok a => k a
  | Raise e => Raise e
  end.

Notation "'try' x := r 'in' k" := (rbind r (λ x, k))
  (at level 10, x name, r at level 100, k at level 200).

(** [[g(x) for x in l]] where [g] may raise. *)
Fixpoint rmap {A B} (g : A → result B) (l : list A) : result (list B) :=
  match l with
  | [] => Ok []
  | x :: l' => try y := g x in try ys := rmap g l' in Ok (y :: ys)
  end.

(** [l[n]] for a non-negative [n]. *)
Definition index {A} (l : list A) (n : nat) : result A :=
  match l !! n with
  | Some x => Ok x
  | None => Raise IndexError
  end.

(** ** Python floats and the numeric library *)

(** The values the reductions return, and [str] on them. *)
Inductive pyval (F : Type) : Type :=
  | VFloat (x : F)
  | VInt (z : Z)
  | VStr (s : string)
  | VNone.
Arguments VFloat {F} x.
Arguments VInt {F} z.
Arguments VStr {F} s.
Arguments VNone {F}.

(** The float type and the library functions [fcn_set] refers to.
    [float_of_str] is [float(s)] ([None] stands for [ValueError]);
    [exact] is the exact rational value of a finite float and is [None] on
    infinities and nan.  The two laws of [statistics_stdev] are what the
    development uses of [statistics.stdev]: it refuses fewer than two
    values, and on finite data whose sample variance, which it computes
    exactly, is zero it returns the float zero.  Nothing is assumed of it on
    other data, where it may round, overflow, or fail on an infinity or a
    nan. *)
Definition mean_Qc (qs : list Qc) : Qc :=
  (foldr Qcplus 0%Qc qs / Q2Qc (inject_Z (Z.of_nat (length qs))))%Qc.

Definition sample_variance (qs : list Qc) : Qc :=
  (foldr Qcplus 0%Qc (map (λ q, (q - mean_Qc qs) * (q - mean_Qc qs)) qs)
   / Q2Qc (inject_Z (Z.of_nat (length qs) - 1)))%Qc.

Class PyFloat : Type := {
  pyfloat : Type;
  float_of_str : string → option pyfloat;
  str_of_float : pyfloat → string;
  fzero : pyfloat;
  exact : pyfloat → option Qc;
  builtin_sum : list pyfloat → result (pyval pyfloat);
  builtin_min : list pyfloat → result (pyval pyfloat);
  builtin_max : list pyfloat → result (pyval pyfloat);
  statistics_mean : list pyfloat → result (pyval pyfloat);
  statistics_median : list pyfloat → result (pyval pyfloat);
  statistics_stdev : list pyfloat → result (pyval pyfloat);
  str_of_fzero : str_of_float fzero = "0.0";
  statistics_stdev_short data :
    (length data < 2)%nat → statistics_stdev data = Raise StatisticsError;
  statistics_stdev_constant data qs :
    (2 ≤ length data)%nat →
    mapM exact data = Some qs →
    sample_variance qs = 0%Qc →
    statistics_stdev data = Ok (VFloat fzero);
}.

Section registry.
Context `{PyFloat}.

Definition value : Type := pyval pyfloat.
Definition reduction : Type := list string → result value.

(** [str(v)]. *)
Definition py_str (v : value) : string :=
  match v with
  | VFloat x => str_of_float x
  | VInt z => pretty z
  | VStr s => s
  | VNone => "None"
  end.

Definition float (s : string) : result pyfloat :=
  match float_of_str s with
  | Some x => Ok x
  | None => Raise ValueError
  end.

Definition numberify (f : list pyfloat → result value) : reduction :=
  λ l, try xs := rmap float l in f xs.

Definition trivial_multiple {A} (f : list A → result value)
    : list A → result value :=
  λ l, if bool_decide (1 < length l)%nat then f l
       else try x := index l 0 in f [x; x].

Definition fcn_first : reduction := λ l, try x := index l 0 in Ok (VStr x).
Definition fcn_last : reduction :=
  λ l, match last l with
       | Some x => Ok (VStr x)
       | None => Raise IndexError
       end.
Definition fcn_ignore : reduction := λ _, Ok VNone.

Definition fcn_set : list (string * reduction) :=
  [ ("sum", numberify builtin_sum);
    ("min", numberify builtin_min);
    ("max", numberify builtin_max);
    ("mean", numberify statistics_mean);
    ("median", numberify statistics_median);
    ("stdev", numberify (trivial_multiple statistics_stdev));
    ("first", fcn_first);
    ("last", fcn_last);
    ("ignore", fcn_ignore) ].

(** [fcn_set[name]], [None] when [name not in fcn_set]. *)
Fixpoint dict_get {A} (d : list (string * A)) (name : string) : option A :=
  match d with
  | [] => None
  | (k, v) :: d' => if decide (k = name) then Some v else dict_get d' name
  end.
End registry.

(** ** State: the closure variables and standard output *)

(** A line written by [print].  [Joined d fields] is the line
    [d.join(fields)]; it is kept unjoined so that the fields of an emitted
    row can be read back without a model of the CSV reader. *)
Inductive out_item : Type :=
  | Joined (d : string) (fields : list string)
  | Text (s : string).

Definition text_of (x : out_item) : string :=
  match x with
  | Joined d fields => String.concat d fields
  | Text s => s
  end.

Record mstate : Type := MState {
  cmp_line : option (list string);
  aggregate_values : gmap nat (list string);
  stdout : list out_item;
}.

Definition M (A : Type) : Type := mstate → result A * mstate.

Definition ret {A} (a : A) : M A := λ st, (Ok a, st).
Definition bind {A B} (m : M A) (k : A → M B) : M B :=
  λ st, match m st with
        | (Ok a, st') => k a st'
        | (Raise e, st') => (Raise e, st')
        end.
Definition lift {A} (r : result A) : M A := λ st, (r, st).
Definition raise {A} (e : pyexn) : M A := lift (Raise e).

Notation "'let*' x := m 'in' k" := (bind m (λ x, k))
  (at level 10, x name, m at level 100, k at level 200).

Definition get_cmp_line : M (option (list string)) :=
  λ st, (Ok (cmp_line st), st).
Definition set_cmp_line (c : option (list string)) : M unit :=
  λ st, (Ok tt, MState c (aggregate_values st) (stdout st)).
(** [aggregate_values[n]]. *)
Definition agg_get (n : nat) : M (list string) :=
  λ st, match aggregate_values st !! n with
        | Some vs => (Ok vs, st)
        | None => (Raise KeyError, st)
        end.
(** [aggregate_values[n] = vs]. *)
Definition agg_set (n : nat) (vs : list string) : M unit :=
  λ st, (Ok tt, MState (cmp_line st) (<[n := vs]> (aggregate_values st)) (stdout st)).
Definition print (x : out_item) : M unit :=
  λ st, (Ok tt, MState (cmp_line st) (aggregate_values st) (stdout st ++ [x])).

(** [for x in l: body(x)]. *)
Fixpoint for_ {A} (l : list A) (body : A → M unit) : M unit :=
  match l with
  | [] => ret tt
  | x :: l' => let* _ := body x in for_ l' body
  end.

(** [[g(x) for x in l]]. *)
Fixpoint mmap {A B} (g : A → M B) (l : list A) : M (list B) :=
  match l with
  | [] => ret []
  | x :: l' => let* y := g x in let* ys := mmap g l' in ret (y :: ys)
  end.

(** [fatal]: the header line goes to standard error, which is not
    modelled; the message [s] is written by a plain [print], that is to
    standard output; then [sys.exit(1)]. *)
Definition fatal {A} (s : string) : M A :=
  let* _ := print (Text s) in raise (SystemExit 1).

(** [csv_rows]: the reader is external, its rows are given. *)
Definition csv_rows (rows : list (list string)) (fn : list string → M unit)
    : M unit :=
  for_ rows fn.

(** ** The merge engine *)

Section engine.
Context `{PyFloat}.
Variable delimiter : string.
Variable field_functions : list (nat * reduction).

Definition sfield_set : gset nat := list_to_set (field_functions.*1).

Definition make_comparable (l : list string) : list string :=
  foldl (λ ret n, if decide (n ∈ sfield_set) then ret
                  else ret ++ option_list (l !! n))
        [] (seq 0 (length l)).

(** The list [l] is the object [cmp_line] refers to at both call sites;
    the callers store the extended list back. *)
Fixpoint add_mergeable_loop (ffs : list (nat * reduction)) (l : list string)
    : M (list string) :=
  match ffs with
  | [] => ret l
  | (n, f) :: ffs' =>
      let* vs := agg_get n in
      let* v := lift (f vs) in
      add_mergeable_loop ffs' (l ++ [py_str v])
  end.
Definition add_mergeable (l : list string) : M (list string) :=
  add_mergeable_loop field_functions l.

(** Python iterates over a set in an order of its own; [elements] is one
    such order.  The bodies of the two loops over [sfield_set] write
    distinct keys of [aggregate_values] and raise the same exception, and
    the lemmas about them hold for every duplicate-free list of the
    indices. *)
Definition reset_cmp_line (row : list string) : M unit :=
  let* _ := set_cmp_line (Some (make_comparable row)) in
  for_ (elements sfield_set)
       (λ n, let* v := lift (index row n) in agg_set n [v]).

Definition collect_and_aggregate (row : list string) : M unit :=
  let* c := get_cmp_line in
  match c with
  | None => reset_cmp_line row
  | Some cl =>
      if decide (make_comparable row = cl) then
        for_ (elements sfield_set)
             (λ n, let* vs := agg_get n in
                   let* v := lift (index row n) in
                   agg_set n (vs ++ [v]))
      else
        let* printable := add_mergeable cl in
        let* _ := set_cmp_line (Some printable) in
        let* _ := print (Joined delimiter printable) in
        reset_cmp_line row
  end.

(** The part of [op_merge] after the specs are parsed. *)
Definition merge_rows (rows : list (list string)) : M unit :=
  let* _ := csv_rows rows collect_and_aggregate in
  let* c := get_cmp_line in
  match c with
  | None => ret tt
  | Some cl =>
      let* printable := add_mergeable cl in
      let* _ := set_cmp_line (Some printable) in
      print (Joined delimiter printable)
  end.
End engine.

(** ** Parsing the field:function specs *)

Definition is_digit (c : ascii) : bool :=
  bool_decide (48 ≤ nat_of_ascii c ≤ 57)%nat.
Definition is_lower (c : ascii) : bool :=
  bool_decide (97 ≤ nat_of_ascii c ≤ 122)%nat.

(** The longest prefix of [s] whose characters satisfy [p], and the rest. *)
Fixpoint span (p : ascii → bool) (s : string) : string * string :=
  match s with
  | String c s' =>
      if p c then let '(a, b) := span p s' in (String c a, b) else ("", s)
  | EmptyString => ("", "")
  end.

Definition newline : string := String (ascii_of_nat 10) "".

(** [re.search("^([0-9]+):([a-z]+)$", s)]: the two groups.  Without
    [re.MULTILINE], [$] matches at the end of [s] and before a newline that
    ends [s]. *)
Definition re_field_function (s : string) : option (string * string) :=
  let '(g1, r1) := span is_digit s in
  match g1, r1 with
  | String _ _, String ":" r2 =>
      let '(g2, r3) := span is_lower r2 in
      match g2 with
      | String _ _ =>
          if decide (r3 = "" ∨ r3 = newline) then Some (g1, g2) else None
      | EmptyString => None
      end
  | _, _ => None
  end.

(** The value of [int(g)] for a string of decimal digits.  The
    interpreter's [int] returns it for a string of at most
    [int_max_str_digits] digits, the default of [sys.int_max_str_digits];
    on a longer string it raises [ValueError], which the model of [ff] does
    not follow: what is stated about the field number of a spec is stated
    within the limit. *)
Definition int_of_digits (g : string) : nat :=
  foldl (λ acc c, 10 * acc + (nat_of_ascii c - 48))%nat 0%nat
        (list_ascii_of_string g).

Definition int_max_str_digits : nat := 4300.

Record args : Type := Args {
  delimiter : string;
  field_function : list string;
}.

Section op_merge.
Context `{PyFloat}.

Definition ff (s : string) : M (nat * reduction) :=
  match re_field_function s with
  | None => fatal ("unable to interpret field:function " +:+ s)
  | Some (g1, g2) =>
      match dict_get fcn_set g2 with
      | None => fatal ("no such field:function operation: " +:+ g2)
      | Some f => ret (int_of_digits g1, f)
      end
  end.

Definition op_merge (a : args) (rows : list (list string)) : M unit :=
  let* field_functions := mmap ff (field_function a) in
  merge_rows (delimiter a) field_functions rows.

(** The state in which [op_merge] starts: [aggregate_values = {}],
    [cmp_line = None], nothing printed. *)
Definition initial : mstate := MState None ∅ [].


Definition stdout_lines (st : mstate) : list string := text_of <$> stdout st.

(** The fields of the rows on standard output. *)
Definition stdout_rows (st : mstate) : list (list string) :=
  omap (λ x, match x with Joined _ fs => Some fs | Text _ => None end)
       (stdout st).
End op_merge.

(** ** What the specification calls things *)

(** The Row Comparator of the specification: the fields of [row] whose
    index, counted from [i], is not aggregated, in their order. *)
Fixpoint project (S : gset nat) (i : nat) (row : list string) : list string :=
  match row with
  | [] => []
  | x :: row' =>
      if decide (i ∈ S) then project S (i + 1) row'
      else x :: project S (i + 1) row'
  end.

Section groups.
Context {K : Type} `{EqDecision K}.
Variable key : list string → K.

(** The maximal runs of contiguous rows with equal keys. *)
Fixpoint runs (rows : list (list string)) : list (list (list string)) :=
  match rows with
  | [] => []
  | r :: rest =>
      match runs rest with
      | (r' :: g) :: gs =>
          if decide (key r = key r') then (r :: r' :: g) :: gs
          else [r] :: (r' :: g) :: gs
      | gs => [r] :: gs
      end
  end.

Definition first_key (g : list (list string)) : option K := key <$> head g.

(** All rows of [g] have the key of its first row. *)
Definition homogeneous (g : list (list string)) : Prop :=
  ∀ r, r ∈ g → Some (key r) = first_key g.

(** Neighbouring groups differ in their key. *)
Fixpoint separated (gs : list (list (list string))) : Prop :=
  match gs with
  | g :: gs' =>
      match gs' with
      | g' :: _ => first_key g ≠ first_key g' ∧ separated gs'
      | [] => True
      end
  | [] => True
  end.

Lemma runs_head r rest : ∃ g gs, runs (r :: rest) = (r :: g) :: gs.
Proof.
  simpl. destruct (runs rest) as [|[|r' g] gs]; eauto.
  case_decide; eauto.
Qed.

Lemma runs_nonempty rows : Forall (λ g, g ≠ []) (runs rows).
Proof.
  induction rows as [|r rest IH]; simpl; [constructor|].
  destruct (runs rest) as [|[|r' g] gs]; [auto | auto |].
  inversion_clear IH. case_decide; auto.
Qed.

Lemma runs_concat rows : concat (runs rows) = rows.
Proof.
  induction rows as [|r rest IH]; simpl; [done|].
  destruct (runs rest) as [|[|r' g] gs]; simpl in *; [by rewrite <- IH ..|].
  case_decide; simpl; by rewrite <- IH.
Qed.

Lemma runs_homogeneous rows : Forall homogeneous (runs rows).
Proof.
  induction rows as [|r rest IH]; simpl; [constructor|].
  assert (homogeneous [r]) as Hr.
  { intros x ->%list_elem_of_singleton. done. }
  destruct (runs rest) as [|[|r' g] gs]; [auto | auto |].
  inversion_clear IH as [|? ? Hg Hgs]. case_decide as Hk; [|auto].
  constructor; [|done]. intros x [->|Hx]%elem_of_cons; [done|].
  rewrite (Hg x Hx). unfold first_key. simpl. by rewrite Hk.
Qed.

Lemma runs_separated rows : separated (runs rows).
Proof.
  induction rows as [|r rest IH]; simpl; [done|].
  destruct (runs rest) as [|[|r' g] gs] eqn:E; [done | |].
  - pose proof (runs_nonempty rest) as Hne. rewrite E in Hne.
    by inversion_clear Hne.
  - case_decide as Hk.
    + simpl in *. destruct gs; [done|]. unfold first_key in *. simpl in *.
      by rewrite Hk.
    + split; [|done]. unfold first_key. simpl. congruence.
Qed.

(** A homogeneous group in front of rows that start with another key is
    a run of its own. *)
Lemma runs_app_group g rows :
  g ≠ [] → homogeneous g →
  first_key g ≠ first_key rows →
  runs (g ++ rows) = g :: runs rows.
Proof.
  intros Hne Hg Hk. induction g as [|x g IH]; [done|].
  destruct g as [|y g].
  - simpl. destruct rows as [|r rest]; [done|].
    destruct (runs_head r rest) as (g' & gs & ->).
    rewrite decide_False; [done|]. unfold first_key in Hk. simpl in Hk.
    congruence.
  - change ((x :: y :: g) ++ rows) with (x :: ((y :: g) ++ rows)).
    cbn [runs]. rewrite IH; [|done| |].
    + rewrite decide_True; [done|].
      assert (Some (key y) = first_key (x :: y :: g)) as Hy.
      { apply Hg. do 2 constructor. }
      unfold first_key in Hy. simpl in Hy. congruence.
    + intros r Hr. rewrite (Hg r); [|by constructor].
      symmetry. apply (Hg y). do 2 constructor.
    + intros Heq. apply Hk. rewrite <- Heq. symmetry. apply (Hg y).
      do 2 constructor.
Qed.

(** The decomposition into runs is the only one into non-empty
    homogeneous groups that differ from their neighbours. *)
Lemma runs_unique gs :
  Forall (λ g, g ≠ []) gs → Forall homogeneous gs → separated gs →
  runs (concat gs) = gs.
Proof.
  induction gs as [|g gs IH]; [done|].
  intros Hne Hh Hs. inversion_clear Hne as [|? ? Hg Hgs].
  inversion_clear Hh as [|? ? Hhg Hhgs]. simpl.
  assert (separated gs) as Hs' by (destruct gs; [done | apply Hs]).
  rewrite runs_app_group, IH; [done .. |].
  destruct gs as [|g' gs']; [by destruct g|].
  destruct Hs as [Hk _]. inversion_clear Hgs. destruct g'; [done|].
  simpl. done.
Qed.

Lemma runs_single g : g ≠ [] → homogeneous g → runs g = [g].
Proof.
  intros Hne Hh. rewrite <- (app_nil_r g) at 1.
  rewrite runs_app_group; [done ..|]. by destruct g.
Qed.
End groups.

Lemma runs_ext {K} `{EqDecision K} (k1 k2 : list string → K) rows :
  (∀ r, k1 r = k2 r) → runs k1 rows = runs k2 rows.
Proof.
  intros Hext. induction rows as [|r rest IH]; [done|].
  simpl. rewrite IH. destruct (runs k2 rest) as [|[|r' g] gs]; [done..|].
  rewrite !Hext. done.
Qed.

(** ** Facts about the monad *)

Lemma bind_assoc {A B C} (m : M A) (f : A → M B) (g : B → M C) st :
  bind (bind m f) g st = bind m (λ x, bind (f x) g) st.
Proof. unfold bind. destruct (m st) as [[a|e] st']; [|done]. done. Qed.

Lemma bind_for_cons {A B} (x : A) l (body : A → M unit) (k : unit → M B) st :
  bind (for_ (x :: l) body) k st
  = bind (body x) (λ _, bind (for_ l body) k) st.
Proof. simpl. apply bind_assoc. Qed.

(** ** Facts about the engine *)

Section engine_facts.
Context `{PyFloat}.
Variable d : string.
Variable ffs : list (nat * reduction).

Abbreviation S := (sfield_set ffs).
Abbreviation key := (make_comparable ffs).

(** [row[n]] where it is in range. *)
Definition field (row : list string) (n : nat) : string :=
  default "" (row !! n).

(** The values of field [n] in the rows of a group. *)
Definition column (n : nat) (g : list (list string)) : list string :=
  (λ r, field r n) <$> g.

(** Every aggregated index is in range for [row]. *)
Definition ok_row (row : list string) : Prop :=
  set_Forall (λ n, n < length row)%nat S.

Lemma elem_of_sfield_set n f : (n, f) ∈ ffs → n ∈ S.
Proof.
  intros Hin. unfold sfield_set. rewrite elem_of_list_to_set.
  apply list_elem_of_fmap. by exists (n, f).
Qed.

Lemma index_field row n : (n < length row)%nat → index row n = Ok (field row n).
Proof.
  intros Hn. unfold index, field.
  destruct (lookup_lt_is_Some_2 row n Hn) as [x ->]. done.
Qed.

Lemma index_out_of_range (row : list string) n :
  (length row ≤ n)%nat → index row n = Raise IndexError.
Proof. intros Hn. unfold index. by rewrite lookup_ge_None_2. Qed.

(** *** The comparable part of a row *)

Lemma make_comparable_from (pre l : list string) acc :
  foldl (λ ret n, if decide (n ∈ S) then ret
                  else ret ++ option_list ((pre ++ l) !! n))
        acc (seq (length pre) (length l))
  = acc ++ project S (length pre) l.
Proof.
  revert pre acc. induction l as [|x l IH]; intros pre acc; simpl.
  - by rewrite app_nil_r.
  - replace (pre ++ x :: l) with ((pre ++ [x]) ++ l) by by rewrite <- app_assoc.
    specialize (IH (pre ++ [x])). rewrite length_app in IH. simpl in IH.
    rewrite Nat.add_1_r in *. rewrite IH.
    case_decide; [done|].
    rewrite lookup_app_l by (rewrite length_app; simpl; lia).
    rewrite list_lookup_middle by done. simpl. by rewrite <- app_assoc.
Qed.

Lemma make_comparable_project l : key l = project S 0 l.
Proof. apply (make_comparable_from [] l []). Qed.

Lemma project_sublist i l : sublist (project S i l) l.
Proof.
  revert i. induction l as [|x l IH]; intros i; simpl; [constructor|].
  case_decide; [apply sublist_cons | apply sublist_skip]; apply IH.
Qed.

(** *** The two loops over [sfield_set] *)

Definition reset_body (row : list string) (n : nat) : M unit :=
  let* v := lift (index row n) in agg_set n [v].

Definition append_body (row : list string) (n : nat) : M unit :=
  let* vs := agg_get n in
  let* v := lift (index row n) in
  agg_set n (vs ++ [v]).

Lemma for_reset_ok row ns c agg out :
  (∀ n, n ∈ ns → n < length row)%nat →
  ∃ agg',
    for_ ns (reset_body row) (MState c agg out) = (Ok tt, MState c agg' out)
    ∧ (∀ n, n ∈ ns → agg' !! n = Some [field row n])
    ∧ (∀ n, n ∉ ns → agg' !! n = agg !! n).
Proof.
  revert agg. induction ns as [|m ns IH]; intros agg Hok; simpl.
  - exists agg. split; [done|]. split; [|done]. by intros n ?%elem_of_nil.
  - unfold bind at 1, reset_body at 1, bind at 1, lift.
    rewrite index_field by (apply Hok; constructor). cbn.
    destruct (IH (<[m:=[field row m]]> agg)) as (agg' & -> & Hin & Hout).
    { intros n Hn. apply Hok. by constructor. }
    exists agg'. split; [done|]. split.
    + intros n Hn. destruct (decide (n ∈ ns)) as [|Hnot]; [auto|].
      apply elem_of_cons in Hn as [->|]; [|done].
      rewrite Hout by done. apply lookup_insert_eq.
    + intros n Hn. apply not_elem_of_cons in Hn as [Hne Hn].
      rewrite Hout by done. by apply lookup_insert_ne.
Qed.

Lemma for_append_ok row ns c agg out :
  NoDup ns →
  (∀ n, n ∈ ns → n < length row)%nat →
  (∀ n, n ∈ ns → is_Some (agg !! n)) →
  ∃ agg',
    for_ ns (append_body row) (MState c agg out) = (Ok tt, MState c agg' out)
    ∧ (∀ n, n ∈ ns → agg' !! n = (λ vs, vs ++ [field row n]) <$> agg !! n)
    ∧ (∀ n, n ∉ ns → agg' !! n = agg !! n).
Proof.
  revert agg. induction ns as [|m ns IH]; intros agg Hnd Hok Hsome; simpl.
  - exists agg. split; [done|]. split; [|done]. by intros n ?%elem_of_nil.
  - apply NoDup_cons in Hnd as [Hm Hnd].
    destruct (Hsome m) as [vs Hvs]; [constructor|].
    unfold bind at 1, append_body at 1, bind at 1, agg_get. cbn.
    rewrite Hvs. unfold bind, lift.
    rewrite index_field by (apply Hok; constructor). cbn.
    destruct (IH (<[m:=vs ++ [field row m]]> agg)) as (agg' & -> & Hin & Hout).
    { done. }
    { intros n Hn. apply Hok. by constructor. }
    { intros n Hn. rewrite lookup_insert_ne; [|by intros ->].
      apply Hsome. by constructor. }
    exists agg'. split; [done|]. split.
    + intros n [->|Hn]%elem_of_cons.
      * rewrite Hout by done. rewrite lookup_insert_eq, Hvs. done.
      * rewrite Hin by done. rewrite lookup_insert_ne; [done|by intros ->].
    + intros n Hn. apply not_elem_of_cons in Hn as [Hne Hn].
      rewrite Hout by done. by apply lookup_insert_ne.
Qed.

(** Either loop leaves [cmp_line] and standard output alone, and raises
    when an index is out of range for the row. *)
Lemma for_reset_cases row ns st :
  ∃ r st',
    for_ ns (reset_body row) st = (r, st')
    ∧ stdout st' = stdout st ∧ cmp_line st' = cmp_line st
    ∧ (r = Ok tt ∨ r = Raise IndexError)
    ∧ ((∃ n, n ∈ ns ∧ length row ≤ n)%nat → r = Raise IndexError).
Proof.
  revert st. induction ns as [|m ns IH]; intros st; simpl.
  - exists (Ok tt), st. repeat split; auto.
    intros (n & []%elem_of_nil & _).
  - unfold bind at 1, reset_body at 1, bind at 1, lift.
    destruct (decide (m < length row)%nat) as [Hm|Hm].
    + rewrite index_field by done. cbn.
      destruct (IH (MState (cmp_line st) (<[m:=[field row m]]> (aggregate_values st))
                           (stdout st)))
        as (r & st' & -> & Hout & Hc & Hr & Hbad).
      exists r, st'. repeat split; [done .. |].
      intros (n & [->|Hn]%elem_of_cons & Hlen); [lia|]. apply Hbad. eauto.
    + rewrite index_out_of_range by lia.
      exists (Raise IndexError), st. repeat split; auto.
Qed.

Lemma for_append_cases row ns st :
  ∃ r st',
    for_ ns (append_body row) st = (r, st')
    ∧ stdout st' = stdout st ∧ cmp_line st' = cmp_line st
    ∧ ((∃ n, n ∈ ns ∧ length row ≤ n)%nat → ∃ e, r = Raise e).
Proof.
  revert st. induction ns as [|m ns IH]; intros st; simpl.
  - exists (Ok tt), st. repeat split; auto.
    intros (n & []%elem_of_nil & _).
  - unfold bind at 1, append_body at 1, bind at 1, agg_get.
    destruct (aggregate_values st !! m) as [vs|]; cbn; [|by eauto 10].
    unfold bind, lift.
    destruct (decide (m < length row)%nat) as [Hm|Hm].
    + rewrite index_field by done. cbn.
      destruct (IH (MState (cmp_line st)
                           (<[m:=vs ++ [field row m]]> (aggregate_values st))
                           (stdout st)))
        as (r & st' & -> & Hout & Hc & Hbad).
      exists r, st'. repeat split; [done .. |].
      intros (n & [->|Hn]%elem_of_cons & Hlen); [lia|]. apply Hbad. eauto.
    + rewrite index_out_of_range by lia. by eauto 10.
Qed.
(** *** Flushing a group *)

(** The fields a flush appends for the group [g]: one per binding, in the
    order of the bindings. *)
Definition results (g : list (list string)) : result (list string) :=
  rmap (λ '(n, f), try v := f (column n g) in Ok (py_str v)) ffs.

(** The row a flush of the group [g] prints. *)
Definition flush_row (g : list (list string)) : result (list string) :=
  try rs := results g in Ok (default [] (first_key key g) ++ rs).

(** What printing the groups [gs] in order leaves on standard output, and
    how it ends: the first flush that raises ends the run. *)
Fixpoint emit_out (gs : list (list (list string))) : list out_item :=
  match gs with
  | [] => []
  | g :: gs' =>
      match flush_row g with
      | Ok line => Joined d line :: emit_out gs'
      | Raise _ => []
      end
  end.

Fixpoint emit_res (gs : list (list (list string))) : result unit :=
  match gs with
  | [] => Ok tt
  | g :: gs' =>
      match flush_row g with
      | Ok _ => emit_res gs'
      | Raise e => Raise e
      end
  end.

(** The state while the group [cur] is open. *)
Definition open_with (st : mstate) (cur : list (list string)) : Prop :=
  cur ≠ []
  ∧ Forall ok_row cur
  ∧ cmp_line st = first_key key cur
  ∧ ∀ n, n ∈ S → aggregate_values st !! n = Some (column n cur).

Definition bad_row (row : list string) : Prop :=
  ∃ n, n ∈ S ∧ (length row ≤ n)%nat.

Lemma ok_or_bad row : ok_row row ∨ bad_row row.
Proof.
  destruct (decide (ok_row row)) as [|Hno]; [by left|right].
  apply not_set_Forall_Exists in Hno; [|apply _].
  destruct Hno as (n & Hn & Hlen). exists n. split; [done|]. simpl in Hlen. lia.
Qed.

Lemma ok_not_bad row : ok_row row → ¬ bad_row row.
Proof. intros Hok (n & Hn & Hlen). specialize (Hok n Hn). simpl in Hok. lia. Qed.

Lemma add_mergeable_loop_spec ffs' l st g :
  (∀ n f, (n, f) ∈ ffs' → aggregate_values st !! n = Some (column n g)) →
  add_mergeable_loop ffs' l st
  = (try rs := rmap (λ '(n, f), try v := f (column n g) in Ok (py_str v)) ffs'
     in Ok (l ++ rs), st).
Proof.
  revert l. induction ffs' as [|[n f] ffs' IH]; intros l Hagg; simpl.
  - by rewrite app_nil_r.
  - unfold bind at 1, agg_get. rewrite (Hagg n f) by constructor.
    unfold bind at 1, lift. destruct (f (column n g)) as [v|e]; simpl; [|done].
    rewrite IH by (intros n' f' Hin; apply (Hagg n' f'); by constructor).
    match goal with
    | |- context [rmap ?k ffs'] => destruct (rmap k ffs') as [rs|e]
    end; simpl; [|done].
    by rewrite <- app_assoc.
Qed.

Lemma add_mergeable_open st cur k :
  open_with st cur →
  add_mergeable ffs k st = (try rs := results cur in Ok (k ++ rs), st).
Proof.
  intros (_ & _ & _ & Hagg). apply add_mergeable_loop_spec.
  intros n f Hin. apply Hagg. by eapply elem_of_sfield_set.
Qed.

(** *** One row *)

Lemma reset_cmp_line_ok row st :
  ok_row row →
  ∃ st', reset_cmp_line ffs row st = (Ok tt, st')
         ∧ open_with st' [row] ∧ stdout st' = stdout st.
Proof.
  intros Hok. destruct st as [c agg out]. unfold reset_cmp_line, bind, set_cmp_line.
  cbn.
  destruct (for_reset_ok row (elements S) (Some (key row)) agg out)
    as (agg' & Hrun & Hin & _).
  { intros n Hn%elem_of_elements. by apply Hok. }
  eexists. split; [exact Hrun|]. split; [|done].
  split; [done|]. split; [by constructor|]. split; [done|].
  intros n Hn. cbn. apply Hin. by apply elem_of_elements.
Qed.

Lemma reset_cmp_line_bad row st :
  bad_row row →
  ∃ st', reset_cmp_line ffs row st = (Raise IndexError, st')
         ∧ stdout st' = stdout st.
Proof.
  intros (n & Hn & Hlen). unfold reset_cmp_line, bind at 1, set_cmp_line. cbn.
  destruct (for_reset_cases row (elements S)
              (MState (Some (key row)) (aggregate_values st) (stdout st)))
    as (r & st' & Hrun & Hout & _ & _ & Hbad).
  rewrite Hbad in Hrun.
  - exists st'. split; [exact Hrun|done].
  - exists n. split; [|done]. by apply elem_of_elements.
Qed.

Lemma first_key_snoc cur row :
  cur ≠ [] → first_key key (cur ++ [row]) = first_key key cur.
Proof. by destruct cur. Qed.

Lemma collect_same st cur row :
  open_with st cur → ok_row row →
  first_key key cur = Some (key row) →
  ∃ st', collect_and_aggregate d ffs row st = (Ok tt, st')
         ∧ open_with st' (cur ++ [row]) ∧ stdout st' = stdout st.
Proof.
  intros (Hne & Hoks & Hc & Hagg) Hok Hk. destruct st as [c agg out].
  simpl in *. unfold collect_and_aggregate, bind at 1, get_cmp_line. cbn.
  rewrite Hc, Hk. rewrite decide_True by done.
  destruct (for_append_ok row (elements S) (Some (key row)) agg out)
    as (agg' & Hrun & Hin & _).
  { apply NoDup_elements. }
  { intros n Hn%elem_of_elements. by apply Hok. }
  { intros n Hn%elem_of_elements. rewrite Hagg by done. eauto. }
  eexists. split; [exact Hrun|]. split; [|done].
  split; [by destruct cur|]. split.
  { apply Forall_app. split; [done|]. by constructor. }
  split; [cbn; by rewrite first_key_snoc|].
  intros n Hn. cbn. rewrite Hin by by apply elem_of_elements.
  rewrite Hagg by done. cbn. unfold column. by rewrite fmap_app.
Qed.

Lemma collect_other_eq st cur row k :
  open_with st cur →
  first_key key cur = Some k → k ≠ key row →
  collect_and_aggregate d ffs row st
  = match results cur with
    | Ok rs =>
        reset_cmp_line ffs row
          (MState (Some (k ++ rs)) (aggregate_values st)
                  (stdout st ++ [Joined d (k ++ rs)]))
    | Raise e => (Raise e, st)
    end.
Proof.
  intros Hopen Ek Hk. pose proof Hopen as (Hne & Hoks & Hc & Hagg).
  unfold collect_and_aggregate, bind at 1, get_cmp_line.
  rewrite Hc, Ek. rewrite decide_False by congruence.
  unfold bind at 1. rewrite (add_mergeable_open st cur k Hopen).
  by destruct (results cur) as [rs|e].
Qed.

Lemma collect_other st cur row :
  open_with st cur → ok_row row →
  first_key key cur ≠ Some (key row) →
  match flush_row cur with
  | Ok line =>
      ∃ st', collect_and_aggregate d ffs row st = (Ok tt, st')
             ∧ open_with st' [row] ∧ stdout st' = stdout st ++ [Joined d line]
  | Raise e =>
      ∃ st', collect_and_aggregate d ffs row st = (Raise e, st')
             ∧ stdout st' = stdout st
  end.
Proof.
  intros Hopen Hok Hk.
  destruct (first_key key cur) as [k|] eqn:Ek; [|by destruct Hopen as [? _], cur].
  rewrite (collect_other_eq st cur row k) by congruence.
  unfold flush_row. rewrite Ek.
  destruct (results cur) as [rs|e]; simpl; [|by exists st].
  apply reset_cmp_line_ok, Hok.
Qed.

(** A row for which an aggregated index is out of range raises, in any
    state. *)
Lemma collect_bad st row :
  bad_row row →
  ∃ e st', collect_and_aggregate d ffs row st = (Raise e, st').
Proof.
  intros Hbad. unfold collect_and_aggregate, bind at 1, get_cmp_line.
  destruct (cmp_line st) as [cl|].
  - case_decide.
    + destruct (for_append_cases row (elements S) st)
        as (r & st' & Hrun & _ & _ & Hr).
      destruct Hr as [e ->].
      { destruct Hbad as (n & Hn & Hlen). exists n. split; [|done].
        by apply elem_of_elements. }
      exists e, st'. exact Hrun.
    + unfold bind at 1. destruct (add_mergeable ffs cl st) as [[l|e] st1]; [|by eauto].
      unfold bind at 1, set_cmp_line. unfold bind at 1, print.
      edestruct reset_cmp_line_bad as (st' & Hrun & _); [done|].
      eexists _, st'. exact Hrun.
  - edestruct reset_cmp_line_bad as (st' & Hrun & _); [done|].
    eexists _, st'. exact Hrun.
Qed.
(** *** A whole run *)

Lemma merge_rows_cons row rows st :
  merge_rows d ffs (row :: rows) st
  = bind (collect_and_aggregate d ffs row) (λ _, merge_rows d ffs rows) st.
Proof. unfold merge_rows, csv_rows. apply bind_for_cons. Qed.

Lemma csv_rows_cons row rows st :
  csv_rows (row :: rows) (collect_and_aggregate d ffs) st
  = bind (collect_and_aggregate d ffs row)
         (λ _, csv_rows rows (collect_and_aggregate d ffs)) st.
Proof. done. Qed.

Lemma merge_rows_nil_open st cur :
  open_with st cur →
  ∃ st', merge_rows d ffs [] st = (emit_res [cur], st')
         ∧ stdout st' = stdout st ++ emit_out [cur].
Proof.
  intros Hopen. pose proof Hopen as (Hne & _ & Hc & _).
  destruct (first_key key cur) as [k|] eqn:Ek; [|by destruct cur].
  unfold merge_rows, csv_rows, for_, bind at 1, ret.
  unfold bind at 1, get_cmp_line. rewrite Hc.
  unfold bind at 1. rewrite (add_mergeable_open st cur k Hopen).
  simpl. unfold flush_row. rewrite Ek.
  destruct (results cur) as [rs|e]; simpl.
  - eexists. split; [reflexivity|done].
  - exists st. by rewrite app_nil_r.
Qed.

Lemma first_key_cons row rows : first_key key (row :: rows) = Some (key row).
Proof. done. Qed.

Lemma homogeneous_singleton row : homogeneous key [row].
Proof. by intros r ->%list_elem_of_singleton. Qed.

Lemma homogeneous_snoc cur row :
  homogeneous key cur → first_key key cur = Some (key row) →
  homogeneous key (cur ++ [row]).
Proof.
  intros Hh Hk. destruct cur as [|r0 cur]; [done|].
  intros r [Hr| ->%list_elem_of_singleton]%elem_of_app.
  - apply (Hh r Hr).
  - by rewrite <- Hk.
Qed.

Lemma run_open rows : ∀ cur st,
  open_with st cur → homogeneous key cur → Forall ok_row rows →
  ∃ st', merge_rows d ffs rows st = (emit_res (runs key (cur ++ rows)), st')
         ∧ stdout st' = stdout st ++ emit_out (runs key (cur ++ rows)).
Proof.
  induction rows as [|row rows IH]; intros cur st Hopen Hh Hoks.
  - rewrite app_nil_r, runs_single by (done || apply Hopen).
    by apply merge_rows_nil_open.
  - inversion_clear Hoks as [|? ? Hok Hoks']. rewrite merge_rows_cons.
    unfold bind at 1.
    destruct (decide (first_key key cur = Some (key row))) as [Hk|Hk].
    + destruct (collect_same st cur row Hopen Hok Hk) as (st1 & -> & Hopen1 & Hout1).
      destruct (IH (cur ++ [row]) st1) as (st' & Hrun & Hout); [done| |done|].
      { by apply homogeneous_snoc. }
      rewrite <- app_assoc in Hrun, Hout. simpl in Hrun, Hout.
      exists st'. by rewrite <- Hout1.
    + rewrite runs_app_group by (done || apply Hopen).
      pose proof (collect_other st cur row Hopen Hok Hk) as Hstep.
      simpl emit_res. simpl emit_out.
      destruct (flush_row cur) as [line|e].
      * destruct Hstep as (st1 & -> & Hopen1 & Hout1).
        destruct (IH [row] st1) as (st' & Hrun & Hout); [done| |done|].
        { apply homogeneous_singleton. }
        exists st'. split; [done|]. rewrite Hout, Hout1.
        by rewrite <- app_assoc.
      * destruct Hstep as (st1 & -> & Hout1). exists st1.
        by rewrite app_nil_r.
Qed.

Lemma merge_rows_nil : merge_rows d ffs [] initial = (Ok tt, initial).
Proof. done. Qed.

(** On rows for which every aggregated index is in range, a run prints the
    flush of each run of rows, in order, up to the first flush that
    raises. *)
Lemma merge_rows_spec rows :
  Forall ok_row rows →
  ∃ st', merge_rows d ffs rows initial = (emit_res (runs key rows), st')
         ∧ stdout st' = emit_out (runs key rows).
Proof.
  destruct rows as [|row rows]; intros Hoks.
  - exists initial. by rewrite merge_rows_nil.
  - inversion_clear Hoks as [|? ? Hok Hoks']. rewrite merge_rows_cons.
    unfold bind at 1.
    destruct (reset_cmp_line_ok row initial Hok) as (st1 & Hrun & Hopen1 & Hout1).
    change (collect_and_aggregate d ffs row initial)
      with (reset_cmp_line ffs row initial).
    rewrite Hrun.
    destruct (run_open rows [row] st1) as (st' & Hrun' & Hout);
      [done|apply homogeneous_singleton|done|].
    exists st'. split; [done|]. by rewrite Hout, Hout1.
Qed.

(** A run that returns has met no row with an index out of range. *)
Lemma csv_rows_ok_rows rows : ∀ st st',
  csv_rows rows (collect_and_aggregate d ffs) st = (Ok tt, st') →
  Forall ok_row rows.
Proof.
  induction rows as [|row rows IH]; intros st st' Hrun; [constructor|].
  rewrite csv_rows_cons in Hrun. unfold bind at 1 in Hrun.
  destruct (ok_or_bad row) as [Hok|Hbad].
  - constructor; [done|].
    destruct (collect_and_aggregate d ffs row st) as [[[]|e] st1]; [|done].
    by eapply IH.
  - destruct (collect_bad st row Hbad) as (e & st1 & Hr). by rewrite Hr in Hrun.
Qed.

Lemma merge_rows_ok_rows rows st st' :
  merge_rows d ffs rows st = (Ok tt, st') → Forall ok_row rows.
Proof.
  unfold merge_rows, bind at 1. intros Hrun.
  destruct (csv_rows rows (collect_and_aggregate d ffs) st) as [[[]|e] st1] eqn:E;
    [|done].
  by eapply csv_rows_ok_rows.
Qed.

Lemma emit_ok gs :
  emit_res gs = Ok tt →
  ∃ lines, emit_out gs = Joined d <$> lines
           ∧ Forall2 (λ g line, flush_row g = Ok line) gs lines.
Proof.
  induction gs as [|g gs IH]; simpl; intros Hok.
  - exists []. by split; [|constructor].
  - destruct (flush_row g) as [line|e] eqn:E; [|done].
    destruct (IH Hok) as (lines & -> & Hall).
    exists (line :: lines). by split; [|constructor].
Qed.

(** A run that returns has printed the flush of every run of rows, in
    order, and nothing else. *)
Lemma merge_rows_flushes rows st' :
  merge_rows d ffs rows initial = (Ok tt, st') →
  ∃ lines, stdout st' = Joined d <$> lines
           ∧ Forall2 (λ g line, flush_row g = Ok line) (runs key rows) lines.
Proof.
  intros Hrun. pose proof (merge_rows_ok_rows _ _ _ Hrun) as Hoks.
  destruct (merge_rows_spec rows Hoks) as (st'' & Hrun' & Hout).
  rewrite Hrun in Hrun'. injection Hrun' as Hres <-.
  rewrite Hout. by apply emit_ok.
Qed.

Lemma emit_res_ok gs :
  Forall (λ g, ∃ line, flush_row g = Ok line) gs → emit_res gs = Ok tt.
Proof. induction 1 as [|g gs [line Hg] _ IH]; [done|]. simpl. by rewrite Hg. Qed.

(** A run returns when every aggregated index is in range for every row
    and the reductions return on every run of rows. *)
Lemma merge_rows_returns rows :
  Forall ok_row rows →
  Forall (λ g, ∃ line, flush_row g = Ok line) (runs key rows) →
  ∃ st', merge_rows d ffs rows initial = (Ok tt, st').
Proof.
  intros Hoks Hflush. destruct (merge_rows_spec rows Hoks) as (st' & Hrun & _).
  rewrite (emit_res_ok _ Hflush) in Hrun. by exists st'.
Qed.

Lemma stdout_rows_joined st lines :
  stdout st = Joined d <$> lines → stdout_rows st = lines.
Proof.
  unfold stdout_rows. intros ->. induction lines as [|l lines IH]; [done|].
  simpl. f_equal. exact IH.
Qed.

Lemma results_vals g rs :
  results g = Ok rs →
  ∃ vals, rs = py_str <$> vals
          ∧ Forall2 (λ '(n, f) v, f (column n g) = Ok v) ffs vals.
Proof.
  unfold results. revert rs. induction ffs as [|[n f] ffs' IH]; simpl; intros rs Hrs.
  - injection Hrs as <-. exists []. by split; [|constructor].
  - destruct (f (column n g)) as [v|e] eqn:Ev; [|done]. simpl in Hrs.
    match type of Hrs with
    | context [rmap ?k ffs'] => destruct (rmap k ffs') as [rs'|e] eqn:Er
    end; [|done].
    injection Hrs as <-. destruct (IH rs' eq_refl) as (vals & -> & Hall).
    exists (v :: vals). by split; [|constructor].
Qed.

(** The row a flush prints: the comparable fields of the first row of the
    group, then one field per binding, in the order of the bindings. *)
Lemma flush_row_shape g line :
  flush_row g = Ok line →
  ∃ vals, line = default [] (first_key key g) ++ (py_str <$> vals)
          ∧ Forall2 (λ '(n, f) v, f (column n g) = Ok v) ffs vals.
Proof.
  unfold flush_row. destruct (results g) as [rs|e] eqn:E; [|done].
  intros [= <-]. destruct (results_vals g rs E) as (vals & -> & Hall).
  by exists vals.
Qed.

(** *** A run on any rows *)

(** A row for which an aggregated index is out of range, met while a
    group is open, raises.  With the key of the group it raises in the loop
    that appends, and nothing is printed; with another key the group is
    flushed first, and the row raises when the next group is set up. *)
Lemma collect_bad_open st cur row :
  open_with st cur → bad_row row →
  ∃ e st',
    collect_and_aggregate d ffs row st = (Raise e, st')
    ∧ (stdout st' = stdout st
       ∨ (first_key key cur ≠ Some (key row)
          ∧ ∃ line, flush_row cur = Ok line
                    ∧ stdout st' = stdout st ++ [Joined d line])).
Proof.
  intros Hopen Hbad. pose proof Hopen as (Hne & _ & Hc & _).
  destruct (first_key key cur) as [k|] eqn:Ek; [|by destruct cur].
  destruct (decide (k = key row)) as [Hk|Hk].
  - unfold collect_and_aggregate, bind at 1, get_cmp_line.
    rewrite Hc. rewrite decide_True by done.
    destruct (for_append_cases row (elements S) st)
      as (r & st' & Hrun & Hout & _ & Hr).
    destruct Hr as [e ->].
    { destruct Hbad as (n & Hn & Hlen). exists n. split; [|done].
      by apply elem_of_elements. }
    exists e, st'. split; [exact Hrun|by left].
  - rewrite (collect_other_eq st cur row k) by done.
    destruct (results cur) as [rs|e] eqn:Er.
    + destruct (reset_cmp_line_bad row
                  (MState (Some (k ++ rs)) (aggregate_values st)
                          (stdout st ++ [Joined d (k ++ rs)])) Hbad)
        as (st' & Hrun & Hout).
      exists IndexError, st'. split; [exact Hrun|]. right.
      split; [congruence|]. exists (k ++ rs). split; [|done].
      unfold flush_row. by rewrite Er, Ek.
    + exists e, st. split; [done|by left].
Qed.

(** Whatever the rows are and however the run ends, what it prints while
    the group [cur] is open and afterwards is the flush of each of the first
    runs of the rows, in order: of all the runs when it returns. *)
Lemma run_open_any rows : ∀ cur st,
  open_with st cur → homogeneous key cur →
  ∃ r st' gs lines,
    merge_rows d ffs rows st = (r, st')
    ∧ stdout st' = stdout st ++ (Joined d <$> lines)
    ∧ gs `prefix_of` runs key (cur ++ rows)
    ∧ Forall2 (λ g line, flush_row g = Ok line) gs lines
    ∧ (r = Ok tt → gs = runs key (cur ++ rows)).
Proof.
  induction rows as [|row rows IH]; intros cur st Hopen Hh.
  - rewrite app_nil_r, runs_single by (done || apply Hopen).
    destruct (merge_rows_nil_open st cur Hopen) as (st' & Hrun & Hout).
    simpl in Hrun, Hout. destruct (flush_row cur) as [line|e] eqn:E.
    + exists (Ok tt), st', [cur], [line].
      split; [done|]. split; [done|]. split; [done|].
      split; [by repeat constructor|done].
    + exists (Raise e), st', [], [].
      split; [done|]. split; [done|]. split; [apply prefix_nil|].
      split; [constructor|done].
  - rewrite merge_rows_cons. unfold bind at 1.
    destruct (ok_or_bad row) as [Hok|Hbad].
    + destruct (decide (first_key key cur = Some (key row))) as [Hk|Hk].
      * destruct (collect_same st cur row Hopen Hok Hk)
          as (st1 & -> & Hopen1 & Hout1).
        destruct (IH (cur ++ [row]) st1)
          as (r & st' & gs & lines & Hrun & Hout & Hpre & Hall & Hret);
          [done|by apply homogeneous_snoc|].
        rewrite <- app_assoc in Hpre, Hret. simpl in Hpre, Hret.
        exists r, st', gs, lines. by rewrite <- Hout1.
      * rewrite runs_app_group by (done || apply Hopen).
        pose proof (collect_other st cur row Hopen Hok Hk) as Hstep.
        destruct (flush_row cur) as [line|e] eqn:E.
        -- destruct Hstep as (st1 & -> & Hopen1 & Hout1).
           destruct (IH [row] st1)
             as (r & st' & gs & lines & Hrun & Hout & Hpre & Hall & Hret);
             [done|apply homogeneous_singleton|].
           exists r, st', (cur :: gs), (line :: lines).
           split; [done|].
           split; [rewrite Hout, Hout1; by rewrite <- app_assoc|].
           split; [by apply prefix_cons|]. split; [by constructor|].
           intros Hr. by rewrite (Hret Hr).
        -- destruct Hstep as (st1 & -> & Hout1).
           exists (Raise e), st1, [], []. rewrite app_nil_r.
           split; [done|]. split; [done|]. split; [apply prefix_nil|].
           split; [constructor|done].
    + destruct (collect_bad_open st cur row Hopen Hbad)
        as (e & st1 & -> & [Hout|(Hk & line & Hflush & Hout)]).
      * exists (Raise e), st1, [], []. rewrite app_nil_r.
        split; [done|]. split; [done|]. split; [apply prefix_nil|].
        split; [constructor|done].
      * rewrite runs_app_group by (done || apply Hopen).
        exists (Raise e), st1, [cur], [line].
        split; [done|]. split; [done|].
        split; [apply prefix_cons, prefix_nil|].
        split; [by repeat constructor|done].
Qed.

(** Every run, however it ends, has printed the flush of each of the
    first runs of rows, in order, and nothing else; a run that returns has
    printed the flush of every run of rows. *)
Lemma merge_rows_printed rows r st' :
  merge_rows d ffs rows initial = (r, st') →
  ∃ gs, gs `prefix_of` runs key rows
        ∧ (r = Ok tt → gs = runs key rows)
        ∧ stdout st' = Joined d <$> stdout_rows st'
        ∧ Forall2 (λ g line, flush_row g = Ok line) gs (stdout_rows st').
Proof.
  destruct rows as [|row rows]; intros Hrun.
  - rewrite merge_rows_nil in Hrun. injection Hrun as <- <-. exists [].
    split; [done|]. split; [done|]. split; [done|constructor].
  - rewrite merge_rows_cons in Hrun. unfold bind at 1 in Hrun.
    change (collect_and_aggregate d ffs row initial)
      with (reset_cmp_line ffs row initial) in Hrun.
    destruct (ok_or_bad row) as [Hok|Hbad].
    + destruct (reset_cmp_line_ok row initial Hok) as (st1 & Hr & Hopen1 & Hout1).
      rewrite Hr in Hrun.
      destruct (run_open_any rows [row] st1)
        as (r0 & st0 & gs & lines & Hrun0 & Hout & Hpre & Hall & Hret);
        [done|apply homogeneous_singleton|].
      rewrite Hrun0 in Hrun. injection Hrun as <- <-.
      rewrite Hout1 in Hout. simpl in Hout.
      rewrite (stdout_rows_joined st0 lines Hout). by exists gs.
    + destruct (reset_cmp_line_bad row initial Hbad) as (st1 & Hr & Hout1).
      rewrite Hr in Hrun. injection Hrun as <- <-. exists [].
      rewrite (stdout_rows_joined st1 [] Hout1).
      split; [apply prefix_nil|]. split; [done|]. split; [done|constructor].
Qed.

Lemma prefix_of_runs_nonempty gs rows :
  gs `prefix_of` runs key rows → Forall (λ g, g ≠ []) gs.
Proof.
  intros [gs' Hgs]. pose proof (runs_nonempty key rows) as Hne.
  rewrite Hgs in Hne. by apply Forall_app in Hne as [? _].
Qed.
End engine_facts.

(** ** Facts about the parser *)

Section parser_facts.
Context `{PyFloat}.

(** A spec that [ff] refuses. *)
Definition bad_spec (s : string) : Prop :=
  match re_field_function s with
  | None => True
  | Some (_, g2) => dict_get fcn_set g2 = None
  end.

#[global] Instance bad_spec_dec s : Decision (bad_spec s).
Proof.
  unfold bad_spec. destruct (re_field_function s) as [[g1 g2]|]; [|apply _].
  destruct (dict_get fcn_set g2); [right|left]; done.
Defined.

Definition printed (st : mstate) (x : out_item) : mstate :=
  MState (cmp_line st) (aggregate_values st) (stdout st ++ [x]).

(** [ff] either returns a binding and leaves the state alone, or prints
    one message and exits with status 1. *)
Lemma ff_good s st :
  ¬ bad_spec s → ∃ b, ff s st = (Ok b, st).
Proof.
  unfold bad_spec, ff. destruct (re_field_function s) as [[g1 g2]|]; [|done].
  destruct (dict_get fcn_set g2) as [f|]; [|done]. by eauto.
Qed.


Lemma mmap_ff_good specs st :
  Forall (λ s, ¬ bad_spec s) specs → ∃ bs, mmap ff specs st = (Ok bs, st).
Proof.
  induction 1 as [|s specs Hs _ IH]; simpl; [by eexists|].
  unfold bind at 1. destruct (ff_good s st Hs) as [b ->].
  unfold bind at 1. destruct IH as [bs ->]. by eexists.
Qed.


(** After the specs are parsed, [op_merge] is the engine run on the
    bindings. *)
Lemma op_merge_parsed a rows bs :
  mmap ff (field_function a) initial = (Ok bs, initial) →
  op_merge a rows initial = merge_rows (delimiter a) bs rows initial.
Proof. intros Hp. unfold op_merge, bind at 1. by rewrite Hp. Qed.
End parser_facts.

(** ** More list facts *)

Lemma Forall2_Forall_impl {A B} (P : A → Prop) (R R' : A → B → Prop) l k :
  Forall P l → Forall2 R l k →
  (∀ x y, P x → R x y → R' x y) → Forall2 R' l k.
Proof.
  intros HP HR Himpl. induction HR as [|x y l k Hxy _ IH]; [constructor|].
  inversion_clear HP. constructor; auto.
Qed.

(** ** Properties of the merge engine *)

Section engine_claims.
Context `{PyFloat}.
Variable d : string.
Variable ffs : list (nat * reduction).

Abbreviation S := (sfield_set ffs).
Abbreviation key := (make_comparable ffs).

(** C1: a run that returns prints exactly one row per maximal run of
    contiguous rows with equal comparable key, in input order.  The key of a
    row is its projection on the indices outside [sfield_set]; the rows on
    standard output are, one for one and in order, the flushes of the runs of
    the input, so there are as many lines as runs.  On an empty input the
    run returns and prints nothing.  And a run does return when every
    aggregated index is in range for every row and the reductions return on
    every run of rows. *)
Theorem merge_one_row_per_run :
  (merge_rows d ffs [] initial = (Ok tt, initial)
   ∧ stdout_lines initial = [])
  ∧ (∀ rows st',
       merge_rows d ffs rows initial = (Ok tt, st') →
       Forall2 (λ g line, flush_row ffs g = Ok line)
               (runs (project S 0) rows) (stdout_rows st')
       ∧ stdout st' = Joined d <$> stdout_rows st'
       ∧ length (stdout_lines st') = length (runs (project S 0) rows))
  ∧ (∀ rows,
       Forall (ok_row ffs) rows →
       Forall (λ g, ∃ line, flush_row ffs g = Ok line)
              (runs (project S 0) rows) →
       ∃ st', merge_rows d ffs rows initial = (Ok tt, st')).
Proof.
  assert (∀ rows, runs (project S 0) rows = runs key rows) as Hkey.
  { intros rows. apply runs_ext. intros r. symmetry.
    apply make_comparable_project. }
  split; [done|]. split.
  - intros rows st' Hrun. rewrite Hkey.
    destruct (merge_rows_flushes d ffs rows st' Hrun) as (lines & Hout & Hall).
    rewrite (stdout_rows_joined d st' lines Hout).
    split; [done|]. split; [done|].
    unfold stdout_lines. rewrite Hout, !length_fmap.
    symmetry. by eapply Forall2_length.
  - intros rows Hoks Hflush. rewrite Hkey in Hflush.
    by apply merge_rows_returns.
Qed.

(** C5: every row a run prints, whether the run returns or raises later,
    is the comparable fields of the first row of its group, that is the
    fields of that row at the indices outside [sfield_set], in their order in
    the row, followed by one field per binding, in the order of the bindings:
    the text of what the reduction of the binding returns on the values of
    its field in the group.  The lines on standard output are such rows and
    nothing else; their groups are, in order, the first runs of the input,
    and all its runs when the run returns. *)
Theorem flushed_row_field_order rows r st' :
  merge_rows d ffs rows initial = (r, st') →
  ∃ gs,
    gs `prefix_of` runs key rows
    ∧ (r = Ok tt → gs = runs key rows)
    ∧ stdout st' = Joined d <$> stdout_rows st'
    ∧ Forall2 (λ g line,
                 ∃ first rest vals,
                   g = first :: rest
                   ∧ line = project S 0 first ++ (py_str <$> vals)
                   ∧ sublist (project S 0 first) first
                   ∧ Forall2 (λ '(n, f) v, f (column n g) = Ok v) ffs vals)
              gs (stdout_rows st').
Proof.
  intros Hrun.
  destruct (merge_rows_printed d ffs rows r st' Hrun)
    as (gs & Hpre & Hret & Hout & Hall).
  exists gs. split; [done|]. split; [done|]. split; [done|].
  eapply Forall2_Forall_impl;
    [apply (prefix_of_runs_nonempty ffs gs rows Hpre)|exact Hall|].
  intros g line Hne Hflush. destruct g as [|first rest]; [done|].
  destruct (flush_row_shape ffs _ _ Hflush) as (vals & -> & Hvals).
  exists first, rest, vals. simpl. rewrite make_comparable_project.
  split; [done|]. split; [done|]. split; [apply project_sublist|done].
Qed.

(** The field a binding contributes to a printed row. *)
Lemma merge_rows_fields rows st' :
  merge_rows d ffs rows initial = (Ok tt, st') →
  Forall2 (λ g line,
             ∃ k, first_key key g = Some k
                  ∧ length line = (length k + length ffs)%nat
                  ∧ ∀ i n f, ffs !! i = Some (n, f) →
                      ∃ v, f (column n g) = Ok v
                           ∧ line !! (length k + i)%nat = Some (py_str v))
          (runs key rows) (stdout_rows st').
Proof.
  intros Hrun.
  destruct (merge_rows_flushes d ffs rows st' Hrun) as (lines & Hout & Hall).
  rewrite (stdout_rows_joined d st' lines Hout).
  eapply Forall2_Forall_impl; [apply (runs_nonempty key rows)|exact Hall|].
  intros g line Hne Hflush. destruct g as [|first rest]; [done|].
  destruct (flush_row_shape ffs _ _ Hflush) as (vals & -> & Hvals).
  exists (key first). split; [done|]. simpl. split.
  - rewrite length_app, length_fmap. f_equal. symmetry.
    by eapply Forall2_length.
  - intros i n f Hi.
    destruct (Forall2_lookup_l _ _ _ _ _ Hvals Hi) as (v & Hv & Hf).
    exists v. split; [done|].
    rewrite lookup_app_r by lia.
    replace (length (key first) + i - length (key first))%nat with i by lia.
    by rewrite list_lookup_fmap, Hv.
Qed.

(** The field a binding contributes to a printed row, for a run that ends
    in any way. *)
Lemma merge_rows_printed_fields rows r st' :
  merge_rows d ffs rows initial = (r, st') →
  ∃ gs,
    gs `prefix_of` runs key rows
    ∧ (r = Ok tt → gs = runs key rows)
    ∧ stdout st' = Joined d <$> stdout_rows st'
    ∧ Forall2 (λ g line,
                 ∃ k, first_key key g = Some k
                      ∧ length line = (length k + length ffs)%nat
                      ∧ ∀ i n f, ffs !! i = Some (n, f) →
                          ∃ v, f (column n g) = Ok v
                               ∧ line !! (length k + i)%nat = Some (py_str v))
              gs (stdout_rows st').
Proof.
  intros Hrun.
  destruct (merge_rows_printed d ffs rows r st' Hrun)
    as (gs & Hpre & Hret & Hout & Hall).
  exists gs. split; [done|]. split; [done|]. split; [done|].
  eapply Forall2_Forall_impl;
    [apply (prefix_of_runs_nonempty ffs gs rows Hpre)|exact Hall|].
  intros g line Hne Hflush. destruct g as [|first rest]; [done|].
  destruct (flush_row_shape ffs _ _ Hflush) as (vals & -> & Hvals).
  exists (key first). split; [done|]. simpl. split.
  - rewrite length_app, length_fmap. f_equal. symmetry.
    by eapply Forall2_length.
  - intros i n f Hi.
    destruct (Forall2_lookup_l _ _ _ _ _ Hvals Hi) as (v & Hv & Hf).
    exists v. split; [done|].
    rewrite lookup_app_r by lia.
    replace (length (key first) + i - length (key first))%nat with i by lia.
    by rewrite list_lookup_fmap, Hv.
Qed.

(** C3, as amended: every binding contributes a field of its own, also
    when it names the field index of an earlier binding.  Every row a run
    prints, whether the run returns or raises later, has one field per
    binding after the comparable fields, and the field of the binding at
    position [i] is the text of what its own reduction returns on the values
    of its field.  The lines on standard output are such rows and nothing
    else; their groups are, in order, the first runs of the input, and all
    its runs when the run returns. *)
Theorem every_binding_contributes rows r st' :
  merge_rows d ffs rows initial = (r, st') →
  ∃ gs,
    gs `prefix_of` runs key rows
    ∧ (r = Ok tt → gs = runs key rows)
    ∧ stdout st' = Joined d <$> stdout_rows st'
    ∧ Forall2 (λ g line,
                 ∃ k, first_key key g = Some k
                      ∧ length line = (length k + length ffs)%nat
                      ∧ ∀ i n f, ffs !! i = Some (n, f) →
                          ∃ v, f (column n g) = Ok v
                               ∧ line !! (length k + i)%nat = Some (py_str v))
              gs (stdout_rows st').
Proof. apply merge_rows_printed_fields. Qed.

(** C2: what the code does with [ignore].  The binding at position [i]
    being an [ignore] binding, every printed row carries the field [None]
    at position [i] after the comparable fields: the binding does
    contribute a field. *)
Theorem ignore_contributes_None rows st' i n :
  merge_rows d ffs rows initial = (Ok tt, st') →
  ffs !! i = Some (n, fcn_ignore) →
  Forall2 (λ g line,
             ∃ k, first_key key g = Some k
                  ∧ length line = (length k + length ffs)%nat
                  ∧ line !! (length k + i)%nat = Some "None")
          (runs key rows) (stdout_rows st').
Proof.
  intros Hrun Hi. eapply Forall2_impl; [by apply merge_rows_fields|].
  intros g line (k & Hk & Hlen & Hfields). exists k.
  split; [done|]. split; [done|].
  destruct (Hfields i n fcn_ignore Hi) as (v & [= <-] & Hline). done.
Qed.


Lemma merge_rows_bad rows : ∀ st,
  Exists (bad_row ffs) rows → ∃ e st', merge_rows d ffs rows st = (Raise e, st').
Proof.
  induction rows as [|row rows IH]; intros st Hex; [by inversion Hex|].
  rewrite merge_rows_cons. unfold bind at 1.
  destruct (ok_or_bad ffs row) as [Hok|Hbad].
  - destruct (collect_and_aggregate d ffs row st) as [[[]|e] st1]; [|by eauto].
    apply IH. inversion_clear Hex as [? ? Hbad|]; [|done].
    by destruct (ok_not_bad ffs row Hok).
  - destruct (collect_bad d ffs st row Hbad) as (e & st1 & ->). by eauto.
Qed.

(** C9: a row for which an aggregated index is out of range makes the run
    raise, so the field is not skipped; and when the index is out of range
    for every row, the run raises [IndexError] at the first row, with
    nothing printed. *)
Theorem out_of_range_index_is_fatal rows :
  Exists (bad_row ffs) rows →
  ∃ e st',
    merge_rows d ffs rows initial = (Raise e, st')
    ∧ (Forall (bad_row ffs) rows → e = IndexError ∧ stdout_lines st' = []).
Proof.
  intros Hex. destruct (merge_rows_bad rows initial Hex) as (e & st' & Hrun).
  exists e, st'. split; [done|]. intros Hall.
  destruct rows as [|row rows]; [by inversion Hex|].
  inversion_clear Hall as [|? ? Hbad _].
  rewrite merge_rows_cons in Hrun. unfold bind at 1 in Hrun.
  destruct (reset_cmp_line_bad ffs row initial Hbad) as (st1 & Hr & Hout).
  change (collect_and_aggregate d ffs row initial)
    with (reset_cmp_line ffs row initial) in Hrun.
  rewrite Hr in Hrun. injection Hrun as <- <-.
  split; [done|]. unfold stdout_lines. by rewrite Hout.
Qed.
End engine_claims.

(** ** Properties of the registry and of the parser *)

Section registry_claims.
Context `{PyFloat}.

(** C7: [first] returns the first and [last] the last value of a
    non-empty sequence, as the text it is: no value is parsed, and [str]
    gives the text back unchanged, whatever the text. *)
Theorem first_last_pass_text_through :
  (∃ f, dict_get fcn_set "first" = Some f
        ∧ ∀ x l, f (x :: l) = Ok (VStr x))
  ∧ (∃ f, dict_get fcn_set "last" = Some f
          ∧ ∀ x l, f (l ++ [x]) = Ok (VStr x))
  ∧ ∀ x, py_str (VStr x) = x.
Proof.
  split; [|split; [|done]].
  - exists fcn_first. by split.
  - exists fcn_last. split; [done|]. intros x l. unfold fcn_last.
    by rewrite last_snoc.
Qed.

Lemma sample_variance_pair (q : Qc) : sample_variance [q; q] = 0%Qc.
Proof.
  assert (mean_Qc [q; q] = q) as Hmean.
  { unfold mean_Qc. simpl. apply Qc_is_canon. simpl.
    rewrite !Qred_correct. destruct q as [q Hq]. simpl. field. }
  unfold sample_variance. rewrite Hmean. simpl.
  apply Qc_is_canon. simpl. rewrite !Qred_correct. field. done.
Qed.

(** Without [trivial_multiple], [stdev] would raise on a group of one
    value. *)
Remark stdev_alone_raises v x :
  float_of_str v = Some x →
  numberify statistics_stdev [v] = Raise StatisticsError.
Proof.
  intros Hv. unfold numberify. simpl. unfold float. rewrite Hv. simpl.
  apply statistics_stdev_short. simpl. lia.
Qed.

Lemma rmap_float_parsed l xs :
  Forall2 (λ v x, float_of_str v = Some x) l xs → rmap float l = Ok xs.
Proof.
  induction 1 as [|v x l xs Hv _ IH]; [done|].
  simpl. unfold float at 1. by rewrite Hv, IH.
Qed.

(** C6, as amended: on a group of one value [v] that [float] accepts, the
    [stdev] reduction is [statistics.stdev] on the float of [v] taken twice,
    whatever that float is, and on a group of two or more values that
    [float] accepts it is [statistics.stdev] on their floats as they are.
    When the float of the one value is finite the reduction does not raise
    and its result is the float zero, printed as [0.0]. *)
Theorem stdev_of_one_value v x :
  float_of_str v = Some x →
  ∃ f, dict_get fcn_set "stdev" = Some f
       ∧ f [v] = statistics_stdev [x; x]
       ∧ (∀ q, exact x = Some q →
               f [v] = Ok (VFloat fzero) ∧ py_str (VFloat fzero) = "0.0")
       ∧ (∀ l xs, (2 ≤ length l)%nat →
                  Forall2 (λ v x, float_of_str v = Some x) l xs →
                  f l = statistics_stdev xs).
Proof.
  intros Hv. exists (numberify (trivial_multiple statistics_stdev)).
  split; [done|].
  assert (numberify (trivial_multiple statistics_stdev) [v]
          = statistics_stdev [x; x]) as Hdup.
  { unfold numberify. simpl. unfold float. by rewrite Hv. }
  split; [done|]. split.
  - intros q Hq. rewrite Hdup. split; [|apply str_of_fzero].
    apply (statistics_stdev_constant [x; x] [q; q]).
    + simpl. lia.
    + simpl. by rewrite Hq.
    + apply sample_variance_pair.
  - intros l xs Hlen Hxs. unfold numberify.
    rewrite (rmap_float_parsed l xs Hxs). simpl. unfold trivial_multiple.
    rewrite bool_decide_eq_true_2; [done|].
    apply Forall2_length in Hxs. lia.
Qed.

End registry_claims.

(** ** Running merge on its own output *)

Section rerun.
Context `{PyFloat}.

(** A reduction that, given the text of a result of its own as the only
    value, returns a result with the same text. *)
Definition stable (f : reduction) : Prop :=
  ∀ vs v, f vs = Ok v → ∃ v', f [py_str v] = Ok v' ∧ py_str v' = py_str v.

Lemma stable_first : stable fcn_first.
Proof.
  intros vs v Hv. unfold fcn_first in *. destruct (index vs 0) as [x|]; [|done].
  injection Hv as <-. by exists (VStr x).
Qed.

Lemma stable_last : stable fcn_last.
Proof.
  intros vs v Hv. unfold fcn_last in *. destruct (last vs) as [x|]; [|done].
  injection Hv as <-. by exists (VStr x).
Qed.

Lemma stable_ignore : stable fcn_ignore.
Proof. intros vs v [= <-]. by exists VNone. Qed.

Variable d : string.
Variable ffs : list (nat * reduction).
Variable m : nat.

Abbreviation S := (sfield_set ffs).
Abbreviation key := (make_comparable ffs).

(** The bindings name the last fields of the rows, once each and in the
    order of the fields. *)
Hypothesis trailing : ffs.*1 = seq m (length ffs).
Hypothesis stable_ffs : Forall stable (ffs.*2).

Lemma elem_of_S_trailing n : n ∈ S ↔ (m ≤ n < m + length ffs)%nat.
Proof.
  unfold sfield_set. rewrite elem_of_list_to_set, trailing, elem_of_seq. lia.
Qed.

Lemma project_trailing row : ∀ i,
  (i + length row ≤ m + length ffs)%nat → project S i row = take (m - i) row.
Proof.
  induction row as [|x row IH]; intros i Hi; simpl in *.
  - by rewrite take_nil.
  - rewrite IH by lia. case_decide as Hin.
    + apply elem_of_S_trailing in Hin.
      replace (m - i)%nat with 0%nat by lia.
      replace (m - (i + 1))%nat with 0%nat by lia. by destruct row.
    + rewrite elem_of_S_trailing in Hin.
      by replace (m - i)%nat with (Datatypes.S (m - (i + 1)))%nat by lia.
Qed.

Lemma key_trailing row :
  (length row ≤ m + length ffs)%nat → key row = take m row.
Proof.
  intros Hlen. rewrite make_comparable_project, project_trailing by lia.
  by rewrite Nat.sub_0_r.
Qed.

Lemma ok_row_trailing row :
  length row = (m + length ffs)%nat → ok_row ffs row.
Proof. intros Hlen n Hn%elem_of_S_trailing. simpl. lia. Qed.

Lemma rerun_fields line : ∀ bs vals t,
  bs.*1 = seq (m + t) (length bs) →
  Forall stable (bs.*2) →
  Forall2 (λ '(n, f) v, ∃ vs, f vs = Ok v) bs vals →
  (∀ i v, vals !! i = Some v → line !! (m + t + i)%nat = Some (py_str v)) →
  rmap (λ '(n, f), try v := f (column n [line]) in Ok (py_str v)) bs
  = Ok (py_str <$> vals).
Proof.
  induction bs as [|[n f] bs IH]; intros vals t Hidx Hst Hvals Hline.
  - by inversion_clear Hvals.
  - inversion Hvals as [|? v ? vals' Hex Hvals']; subst.
    simpl in Hex. destruct Hex as [vs Hv].
    simpl in Hidx, Hst. injection Hidx as -> Hidx.
    inversion_clear Hst as [|? ? Hf Hst'].
    destruct (Hf vs v Hv) as (v' & Hv' & Hstr).
    assert (column (m + t) [line] = [py_str v]) as Hcol.
    { unfold column, field. simpl. rewrite <- (Nat.add_0_r (m + t)).
      by rewrite (Hline 0%nat v eq_refl). }
    cbn [rmap]. rewrite Hcol, Hv'. cbn [rbind].
    rewrite (IH vals' (t + 1)%nat).
    + simpl. by rewrite Hstr.
    + etrans; [exact Hidx|]. f_equal. lia.
    + done.
    + done.
    + intros i w Hw. rewrite <- (Hline (Datatypes.S i) w Hw). f_equal. lia.
Qed.

(** The flush of a printed row, taken as a group of its own, is that
    row. *)
Lemma flush_of_flushed first rest line :
  length first = (m + length ffs)%nat →
  flush_row ffs (first :: rest) = Ok line →
  flush_row ffs [line] = Ok line
  ∧ length line = (m + length ffs)%nat
  ∧ key line = key first.
Proof.
  intros Hlen Hflush.
  destruct (flush_row_shape ffs _ _ Hflush) as (vals & Hline & Hvals).
  simpl in Hline. rewrite key_trailing in Hline by lia.
  assert (length (take m first) = m) as Hk by (rewrite length_take; lia).
  assert (length vals = length ffs) as Hv by (symmetry; by eapply Forall2_length).
  assert (length line = (m + length ffs)%nat) as Hll.
  { rewrite Hline, length_app, length_fmap. lia. }
  assert (key line = take m first) as Hkl.
  { rewrite key_trailing by lia. rewrite Hline.
    rewrite <- Hk at 1. apply take_app_length. }
  split; [|split; [done|]].
  - unfold flush_row, results. rewrite (rerun_fields line ffs vals 0).
    + simpl. by rewrite Hkl, Hline.
    + by rewrite Nat.add_0_r.
    + done.
    + eapply Forall2_impl; [exact Hvals|]. intros [n f] v Hf. by eauto.
    + intros i v Hi. rewrite Hline, Nat.add_0_r.
      rewrite lookup_app_r by lia. rewrite Hk.
      replace (m + i - m)%nat with i by lia.
      by rewrite list_lookup_fmap, Hi.
  - rewrite Hkl. symmetry. apply key_trailing. lia.
Qed.

Lemma separated_singletons gs lines :
  Forall2 (λ g line, first_key key g = Some (key line)) gs lines →
  separated key gs → separated key ((λ l, [l]) <$> lines).
Proof.
  induction 1 as [|g line gs lines Hg Hall IH]; [done|].
  intros Hsep. destruct Hall as [|g' line' gs' lines' Hg' Hall']; [done|].
  destruct Hsep as [Hne Hsep]. split; [|by apply IH].
  unfold first_key at 1 2. simpl. rewrite <- Hg, <- Hg'. done.
Qed.

Lemma emit_singletons lines :
  Forall (λ line, flush_row ffs [line] = Ok line) lines →
  emit_res ffs ((λ l, [l]) <$> lines) = Ok tt
  ∧ emit_out d ffs ((λ l, [l]) <$> lines) = Joined d <$> lines.
Proof.
  induction 1 as [|line lines Hline _ [IHr IHo]]; [done|].
  rewrite !fmap_cons. cbn [emit_res emit_out]. by rewrite Hline, IHr, IHo.
Qed.

Lemma concat_singletons {A} (l : list A) : concat ((λ x, [x]) <$> l) = l.
Proof. induction l as [|x l IH]; [done|]. simpl. f_equal. exact IH. Qed.

(** The rows a run prints, and what a second run makes of them. *)
Lemma rerun_same rows st1 :
  Forall (λ row, length row = (m + length ffs)%nat) rows →
  merge_rows d ffs rows initial = (Ok tt, st1) →
  ∃ st2, merge_rows d ffs (stdout_rows st1) initial = (Ok tt, st2)
         ∧ stdout st2 = stdout st1.
Proof.
  intros Hlen Hrun.
  destruct (merge_rows_flushes d ffs rows st1 Hrun) as (lines & Hout & Hall).
  rewrite (stdout_rows_joined d st1 lines Hout).
  assert (Forall (λ g, g ≠ [] ∧ Forall (λ row, length row = (m + length ffs)%nat) g)
                 (runs key rows)) as Hgs.
  { apply Forall_and. split; [apply runs_nonempty|].
    apply Forall_concat. by rewrite runs_concat. }
  assert (Forall2 (λ g line, flush_row ffs [line] = Ok line
                             ∧ length line = (m + length ffs)%nat
                             ∧ first_key key g = Some (key line))
                  (runs key rows) lines) as Hall'.
  { eapply Forall2_Forall_impl; [exact Hgs|exact Hall|].
    intros g line [Hne Hg] Hflush. destruct g as [|first rest]; [done|].
    inversion_clear Hg as [|? ? Hfirst _].
    destruct (flush_of_flushed first rest line Hfirst Hflush) as (? & ? & Hk).
    split; [done|]. split; [done|]. simpl. by rewrite Hk. }
  assert (runs key lines = (λ l, [l]) <$> lines) as Hruns.
  { rewrite <- (concat_singletons lines) at 1. apply runs_unique.
    - apply Forall_fmap, Forall_true. done.
    - apply Forall_fmap, Forall_true. intros l. apply homogeneous_singleton.
    - eapply separated_singletons; [|apply (runs_separated key rows)].
      eapply Forall2_impl; [exact Hall'|]. by intros g line (_ & _ & ?). }
  destruct (merge_rows_spec d ffs lines) as (st2 & Hrun2 & Hout2).
  { eapply Forall2_Forall_r; [exact Hall'|]. apply Forall_true.
    intros g line (_ & Hl & _). by apply ok_row_trailing. }
  destruct (emit_singletons lines) as [Hres Hemit].
  { eapply Forall2_Forall_r; [exact Hall'|]. apply Forall_true.
    by intros g line (? & _ & _). }
  rewrite Hruns, Hres in Hrun2. rewrite Hruns, Hemit in Hout2.
  exists st2. by rewrite Hout.
Qed.
End rerun.

(** ** Reading text *)

(** [csv.reader] and [str.strip] are library code, taken through the
    interface [CsvReader].  [csv_reader delim text] is what iterating
    [csv.reader(inchannel, delimiter=delim)] gives on an input channel with
    the contents [text]: the rows it yields and, when the iteration ends
    with an exception, that exception. *)
Class CsvReader : Type := {
  csv_reader : string → string → list (list string) * option pyexn;
  str_strip : string → string;
}.

Section reading.
Context `{CsvReader}.

(** The rows [csv_rows] hands to [fn], [[e.strip() for e in row]] for each
    [row] of the reader. *)
Definition read_rows (delim text : string)
    : list (list string) * option pyexn :=
  let r := csv_reader delim text in
  (fmap (M:=list) (fmap (M:=list) str_strip) r.1, r.2).

(** [csv_rows] on an input with the contents [text]. *)
Definition csv_rows_text (delim text : string) (fn : list string → M unit)
    : M unit :=
  let '(rows, e) := read_rows delim text in
  let* _ := csv_rows rows fn in
  match e with
  | None => ret tt
  | Some e => raise e
  end.

(** The text on standard output: [print] ends every line with a
    newline. *)
Definition stdout_text (st : mstate) : string :=
  String.concat "" ((λ line, line +:+ newline) <$> stdout_lines st).

(** The part of [op_merge] after the specs are parsed, on an input with
    the contents [text]. *)
Definition merge_text `{PyFloat} (delimiter : string)
    (field_functions : list (nat * reduction)) (text : string) : M unit :=
  let* _ := csv_rows_text delimiter text
              (collect_and_aggregate delimiter field_functions) in
  let* c := get_cmp_line in
  match c with
  | None => ret tt
  | Some cl =>
      let* printable := add_mergeable field_functions cl in
      let* _ := set_cmp_line (Some printable) in
      print (Joined delimiter printable)
  end.

Lemma csv_rows_text_read delim text rows fn st :
  read_rows delim text = (rows, None) →
  csv_rows_text delim text fn st = csv_rows rows fn st.
Proof.
  intros Hread. unfold csv_rows_text. rewrite Hread. unfold bind, ret.
  by destruct (csv_rows rows fn st) as [[[]|e] st'].
Qed.

Lemma merge_text_read `{PyFloat} d ffs text rows st :
  read_rows d text = (rows, None) →
  merge_text d ffs text st = merge_rows d ffs rows st.
Proof.
  intros Hread. unfold merge_text, merge_rows, bind at 1 3.
  by rewrite (csv_rows_text_read d text rows _ st Hread).
Qed.
End reading.

(** C4, as amended: when the bindings name the last fields of the rows,
    once each and in the order of the fields, each reduction is [stable]
    (as [first], [last] and [ignore] are), and the reader reads the text the
    first run printed back as the rows of fields that were printed, a second
    run on that text, with the same bindings and delimiter, prints the same
    text. *)
Theorem second_run_on_trailing_fields `{PyFloat} `{CsvReader} d ffs m rows st1 :
  ffs.*1 = seq m (length ffs) →
  Forall stable (ffs.*2) →
  Forall (λ row, length row = (m + length ffs)%nat) rows →
  merge_rows d ffs rows initial = (Ok tt, st1) →
  read_rows d (stdout_text st1) = (stdout_rows st1, None) →
  ∃ st2, merge_text d ffs (stdout_text st1) initial = (Ok tt, st2)
         ∧ stdout st2 = stdout st1
         ∧ stdout_lines st2 = stdout_lines st1
         ∧ stdout_text st2 = stdout_text st1.
Proof.
  intros Htrail Hstable Hlen Hrun Hread.
  destruct (rerun_same d ffs m Htrail Hstable rows st1 Hlen Hrun)
    as (st2 & Hrun2 & Hout).
  exists st2. rewrite (merge_text_read d ffs _ _ initial Hread).
  split; [done|]. split; [done|].
  unfold stdout_text, stdout_lines. by rewrite Hout.
Qed.

(** ** The specification read literally *)

(** "The last binding for a field index wins": the bindings that a later
    binding of the same index does not shadow. *)
Fixpoint last_bindings `{PyFloat} (ffs : list (nat * reduction))
    : list (nat * reduction) :=
  match ffs with
  | [] => []
  | (n, f) :: ffs' =>
      if decide (n ∈ ffs'.*1) then last_bindings ffs'
      else (n, f) :: last_bindings ffs'
  end.

(** ** More about the merge engine *)

(** Each run of equal neighbouring rows replaced by one copy of the row. *)
Fixpoint drop_repeats (rows : list (list string)) : list (list string) :=
  match rows with
  | [] => []
  | r :: rest =>
      match rest with
      | r' :: _ => if decide (r = r') then drop_repeats rest
                   else r :: drop_repeats rest
      | [] => [r]
      end
  end.

Section more_groups.
Context {K : Type} `{EqDecision K}.
Variable key : list string → K.



Lemma separated_app gs1 gs2 :
  separated key gs1 → separated key gs2 →
  (∀ g1 g2, last gs1 = Some g1 → head gs2 = Some g2 →
            first_key key g1 ≠ first_key key g2) →
  separated key (gs1 ++ gs2).
Proof.
  induction gs1 as [|g gs1 IH]; intros Hs1 Hs2 Hb; [done|].
  destruct gs1 as [|g' gs1].
  - simpl. destruct gs2 as [|g2 gs2]; [done|]. split; [|done]. by apply Hb.
  - destruct Hs1 as [Hne Hs1]. split; [done|]. apply IH; [done..|].
    intros g1 g2 Hl Hh. apply Hb; [|done]. by rewrite last_cons, Hl.
Qed.

Lemma last_concat_groups (gs : list (list (list string))) g :
  last gs = Some g → g ≠ [] → last (concat gs) = last g.
Proof.
  revert g. induction gs as [|g0 gs IH]; [done|]. intros g Hl Hne.
  simpl. rewrite last_app. destruct gs as [|g1 gs].
  - injection Hl as ->. simpl. by destruct (last g).
  - rewrite last_cons in Hl. destruct (last (g1 :: gs)) as [g'|] eqn:E;
      [|by apply last_None in E].
    injection Hl as ->. rewrite (IH g) by done.
    destruct (last g) eqn:El; [done|]. by apply last_None in El.
Qed.

(** The key of a homogeneous group is the key of its last row. *)
Lemma first_key_last g :
  homogeneous key g → key <$> last g = first_key key g.
Proof.
  intros Hh. destruct (last g) as [r|] eqn:El.
  - simpl. apply Hh. rewrite last_Some in El. destruct El as [l' ->].
    apply elem_of_app. right. constructor.
  - apply last_None in El. by subst.
Qed.

(** Where the key changes between two lists of rows, the runs of their
    concatenation are the runs of the one followed by those of the other. *)
Lemma runs_app rows1 rows2 :
  key <$> last rows1 ≠ key <$> head rows2 →
  runs key (rows1 ++ rows2) = runs key rows1 ++ runs key rows2.
Proof.
  intros Hb. rewrite <- (runs_concat key rows1) at 1.
  rewrite <- (runs_concat key rows2) at 1. rewrite <- concat_app.
  apply runs_unique.
  - apply Forall_app. split; apply runs_nonempty.
  - apply Forall_app. split; apply runs_homogeneous.
  - apply separated_app; [apply runs_separated..|].
    intros g1 g2 Hl Hh Heq. apply Hb.
    pose proof (runs_nonempty key rows1) as Hne1.
    pose proof (runs_homogeneous key rows1) as Hh1.
    assert (g1 ∈ runs key rows1) as Hin1.
    { rewrite last_Some in Hl. destruct Hl as [l' ->].
      apply elem_of_app. right. constructor. }
    rewrite Forall_forall in Hne1, Hh1.
    rewrite <- (runs_concat key rows1).
    rewrite (last_concat_groups _ g1 Hl) by auto.
    rewrite first_key_last by auto. rewrite Heq.
    destruct rows2 as [|r2 rest2]; [done|].
    destruct (runs_head key r2 rest2) as (g & gs & Hr). rewrite Hr in Hh.
    injection Hh as <-. done.
Qed.

Lemma heads_of_runs rows :
  (∀ r r', key r = key r' → r = r') →
  omap head (runs key rows) = drop_repeats rows.
Proof.
  intros Hinj. induction rows as [|r rest IH]; [done|].
  cbn [runs drop_repeats]. destruct rest as [|r' rest'].
  { done. }
  destruct (runs_head key r' rest') as (g & gs & Hr). rewrite Hr in *.
  destruct (decide (key r = key r')) as [Hk|Hk].
  - rewrite decide_True by auto. rewrite <- IH. simpl. by rewrite (Hinj _ _ Hk).
  - rewrite decide_False by congruence. rewrite <- IH. done.
Qed.
End more_groups.

Section more_engine.
Context `{PyFloat}.
Variable d : string.
Variable ffs : list (nat * reduction).

Abbreviation S := (sfield_set ffs).
Abbreviation key := (make_comparable ffs).

Lemma emit_res_app gs1 gs2 :
  emit_res ffs gs1 = Ok tt → emit_res ffs (gs1 ++ gs2) = emit_res ffs gs2.
Proof.
  induction gs1 as [|g gs1 IH]; [done|]. simpl.
  destruct (flush_row ffs g); [exact IH|done].
Qed.

Lemma emit_out_app gs1 gs2 :
  emit_res ffs gs1 = Ok tt →
  emit_out d ffs (gs1 ++ gs2) = emit_out d ffs gs1 ++ emit_out d ffs gs2.
Proof.
  induction gs1 as [|g gs1 IH]; [done|]. simpl.
  destruct (flush_row ffs g); [|done]. intros Hok. simpl. f_equal. by apply IH.
Qed.

Lemma merge_rows_returned rows st' :
  merge_rows d ffs rows initial = (Ok tt, st') →
  Forall (ok_row ffs) rows
  ∧ emit_res ffs (runs key rows) = Ok tt
  ∧ stdout st' = emit_out d ffs (runs key rows).
Proof.
  intros Hrun. pose proof (merge_rows_ok_rows _ _ _ _ _ Hrun) as Hoks.
  destruct (merge_rows_spec d ffs rows Hoks) as (st'' & Hrun' & Hout).
  rewrite Hrun in Hrun'. injection Hrun' as Hres <-. done.
Qed.

(** X1: merge over a concatenation.  When the comparable key changes
    between the last row of [rows1] and the first row of [rows2] and the
    runs on [rows1] and on [rows2] return, the run on [rows1 ++ rows2]
    returns and prints the output for [rows1] followed by the output for
    [rows2]. *)
Theorem merge_rows_app rows1 rows2 st1 st2 :
  merge_rows d ffs rows1 initial = (Ok tt, st1) →
  merge_rows d ffs rows2 initial = (Ok tt, st2) →
  key <$> last rows1 ≠ key <$> head rows2 →
  ∃ st, merge_rows d ffs (rows1 ++ rows2) initial = (Ok tt, st)
        ∧ stdout st = stdout st1 ++ stdout st2.
Proof.
  intros Hrun1 Hrun2 Hb.
  destruct (merge_rows_returned rows1 st1 Hrun1) as (Hoks1 & Hres1 & Hout1).
  destruct (merge_rows_returned rows2 st2 Hrun2) as (Hoks2 & Hres2 & Hout2).
  destruct (merge_rows_spec d ffs (rows1 ++ rows2)) as (st & Hrun & Hout).
  { by apply Forall_app. }
  rewrite runs_app in Hrun, Hout by done.
  rewrite emit_res_app, Hres2 in Hrun by done.
  rewrite emit_out_app in Hout by done.
  exists st. split; [done|]. by rewrite Hout, Hout1, Hout2.
Qed.


(** X3: a flush that raises ends the run with its exception.  When every
    aggregated index is in range for every row, the rows of the runs before
    the first run whose flush raises are on standard output, and nothing
    else is. *)
Theorem merge_rows_stops_at_failing_flush rows gs1 g gs2 e :
  Forall (ok_row ffs) rows →
  runs key rows = gs1 ++ g :: gs2 →
  Forall (λ g, ∃ line, flush_row ffs g = Ok line) gs1 →
  flush_row ffs g = Raise e →
  ∃ st', merge_rows d ffs rows initial = (Raise e, st')
         ∧ Forall2 (λ g line, flush_row ffs g = Ok line) gs1 (stdout_rows st')
         ∧ stdout st' = Joined d <$> stdout_rows st'.
Proof.
  intros Hoks Hruns Hgs1 Hg.
  destruct (merge_rows_spec d ffs rows Hoks) as (st' & Hrun & Hout).
  pose proof (emit_res_ok ffs gs1 Hgs1) as Hres1.
  rewrite Hruns in Hrun, Hout.
  rewrite emit_res_app in Hrun by done. rewrite emit_out_app in Hout by done.
  simpl in Hrun, Hout. rewrite Hg in Hrun, Hout. rewrite app_nil_r in Hout.
  destruct (emit_ok d ffs gs1 Hres1) as (lines & Hlines & Hall).
  rewrite Hlines in Hout. exists st'.
  by rewrite (stdout_rows_joined d st' lines Hout).
Qed.
End more_engine.

(** X4: with no binding, merge removes repeated neighbouring rows and
    nothing else.  The run returns on every input and prints one copy of
    each run of equal neighbouring rows. *)
Theorem merge_rows_without_bindings `{PyFloat} d rows :
  ∃ st', merge_rows d [] rows initial = (Ok tt, st')
         ∧ stdout st' = Joined d <$> drop_repeats rows.
Proof.
  assert (∀ r : list string, make_comparable [] r = r) as Hkey.
  { intros r. rewrite make_comparable_project.
    generalize 0%nat. induction r as [|x r IH]; intros i; [done|].
    simpl. rewrite decide_False by set_solver. by rewrite IH. }
  destruct (merge_rows_spec d [] rows) as (st' & Hrun & Hout).
  { apply Forall_true. intros r n Hn. set_solver. }
  assert (∀ gs, Forall (λ g, g ≠ []) gs →
            emit_res [] gs = Ok tt
            ∧ emit_out d [] gs = Joined d <$> omap head gs) as Hemit.
  { induction 1 as [|g gs Hg _ [IHr IHo]]; [done|].
    destruct g as [|r g]; [done|]. simpl. unfold flush_row, results. simpl.
    rewrite app_nil_r, Hkey. by rewrite IHo. }
  destruct (Hemit (runs (make_comparable []) rows)) as [Hres Hemit'].
  { apply runs_nonempty. }
  rewrite Hres in Hrun. rewrite Hemit' in Hout.
  rewrite heads_of_runs in Hout by (intros r r'; by rewrite !Hkey).
  by exists st'.
Qed.

(** ** More about the registry and the parser *)

Section more_registry.
Context `{PyFloat}.

Lemma rmap_float_ok l xs :
  Forall2 (λ v x, float_of_str v = Some x) l xs → rmap float l = Ok xs.
Proof.
  induction 1 as [|v x l xs Hv _ IH]; [done|].
  simpl. unfold float at 1. rewrite Hv. simpl. by rewrite IH.
Qed.

Lemma rmap_float_bad l :
  Exists (λ v, float_of_str v = None) l → rmap float l = Raise ValueError.
Proof.
  induction 1 as [v l Hv|v l _ IH]; simpl; unfold float at 1.
  - by rewrite Hv.
  - destruct (float_of_str v); [|done]. simpl. by rewrite IH.
Qed.

Definition numeric_names : list string :=
  ["sum"; "min"; "max"; "mean"; "median"; "stdev"].

(** X5: the six numeric reductions parse every value before they compute
    anything.  If one value of the group is not accepted by [float] the
    reduction raises [ValueError], whatever the other values are; and if all
    are accepted, the reduction is the library function on the floats
    ([statistics.stdev] on the one float taken twice when there is one). *)
Theorem numeric_reductions_parse_first name :
  name ∈ numeric_names →
  ∃ g, dict_get fcn_set name = Some (numberify g)
       ∧ (∀ l, Exists (λ v, float_of_str v = None) l →
               numberify g l = Raise ValueError)
       ∧ (∀ l xs, Forall2 (λ v x, float_of_str v = Some x) l xs →
                  numberify g l = g xs).
Proof.
  intros Hname.
  assert (∀ g, (∀ l, Exists (λ v, float_of_str v = None) l →
                     numberify g l = Raise ValueError)
               ∧ (∀ l xs, Forall2 (λ v x, float_of_str v = Some x) l xs →
                          numberify g l = g xs)) as Hnum.
  { intros g. split.
    - intros l Hl. unfold numberify. by rewrite rmap_float_bad.
    - intros l xs Hl. unfold numberify. by rewrite (rmap_float_ok l xs). }
  unfold numeric_names in Hname.
  repeat (apply elem_of_cons in Hname as [->|Hname]);
    [eexists; split; [reflexivity|apply Hnum] ..|].
  by apply elem_of_nil in Hname.
Qed.

(** *** Decimal numerals *)

Lemma int_of_digits_go (l : list ascii) acc :
  foldl (λ acc c, 10 * acc + (nat_of_ascii c - 48))%nat acc l
  = (acc * 10 ^ length l
     + foldl (λ acc c, 10 * acc + (nat_of_ascii c - 48))%nat 0%nat l)%nat.
Proof.
  revert acc. induction l as [|c l IH]; intros acc; simpl.
  - lia.
  - rewrite (IH (10 * acc + _)%nat), (IH (_ - _)%nat). simpl. nia.
Qed.

Lemma int_of_digits_String c s :
  int_of_digits (String c s)
  = ((nat_of_ascii c - 48) * 10 ^ String.length s + int_of_digits s)%nat.
Proof.
  unfold int_of_digits. simpl. rewrite int_of_digits_go.
  replace (length (list_ascii_of_string s)) with (String.length s); [done|].
  induction s; simpl; congruence.
Qed.

Definition all_digits (s : string) : Prop :=
  Forall (λ c, is_digit c = true) (list_ascii_of_string s).

Lemma pretty_N_char_digit x :
  (x < 10)%N →
  is_digit (pretty_N_char x) = true
  ∧ (nat_of_ascii (pretty_N_char x) - 48)%nat = N.to_nat x.
Proof.
  intros Hx.
  assert (x = 0 ∨ x = 1 ∨ x = 2 ∨ x = 3 ∨ x = 4 ∨ x = 5 ∨ x = 6
          ∨ x = 7 ∨ x = 8 ∨ x = 9)%N as Hc by lia.
  repeat (destruct Hc as [->|Hc]; [by split|]). by subst.
Qed.

Lemma pretty_N_go_digits x : ∀ s,
  all_digits s →
  all_digits (pretty_N_go x s)
  ∧ int_of_digits (pretty_N_go x s)
    = (N.to_nat x * 10 ^ String.length s + int_of_digits s)%nat
  ∧ (s ≠ "" → pretty_N_go x s ≠ "")
  ∧ ((0 < x)%N → pretty_N_go x s ≠ "").
Proof.
  induction (N.lt_wf_0 x) as [x _ IH]; intros s Hs.
  assert (x = 0 ∨ 0 < x)%N as [->|Hx] by lia.
  { rewrite pretty_N_go_0. split; [done|].
    split; [change (N.to_nat 0) with 0%nat; lia|]. split; [done|lia]. }
  rewrite pretty_N_go_step by done.
  destruct (pretty_N_char_digit (x `mod` 10)) as [Hd Hv].
  { by apply N.mod_lt. }
  destruct (IH (x `div` 10)%N (N.div_lt x 10 Hx eq_refl)
               (String (pretty_N_char (x `mod` 10)) s)) as (Ha & Hval & Hne & _).
  { by constructor. }
  split; [done|]. split; [|split; intros _; by apply Hne].
  rewrite Hval, int_of_digits_String, Hv. simpl String.length.
  rewrite Nat.pow_succ_r'.
  pose proof (N.div_mod x 10 ltac:(done)) as Hdm.
  assert (N.to_nat x = 10 * N.to_nat (x `div` 10) + N.to_nat (x `mod` 10))%nat
    as -> by lia.
  nia.
Qed.

(** The decimal numeral of [n] is a non-empty string of digits whose value
    is [n]. *)
Lemma pretty_nat_digits (n : nat) :
  all_digits (pretty n) ∧ int_of_digits (pretty n) = n ∧ pretty n ≠ "".
Proof.
  unfold pretty, pretty_nat, pretty, pretty_N. case_decide as Hn.
  - assert (n = 0)%nat as -> by lia. split; [by repeat constructor|done].
  - destruct (pretty_N_go_digits (N.of_nat n) "") as (Ha & Hv & _ & Hne).
    { constructor. }
    split; [done|]. split; [|apply Hne; lia].
    rewrite Hv. change (int_of_digits "") with 0%nat.
    change (String.length "") with 0%nat. rewrite Nat2N.id. simpl. lia.
Qed.

Lemma span_append p a b :
  Forall (λ c, p c = true) (list_ascii_of_string a) →
  (∀ c b', b = String c b' → p c = false) →
  span p (a +:+ b) = (a, b).
Proof.
  intros Ha Hb. induction a as [|c a IH]; simpl in *.
  - destruct b as [|c b']; [done|]. simpl. by rewrite (Hb c b').
  - inversion_clear Ha as [|? ? Hc Ha']. rewrite Hc, IH by done. done.
Qed.

(** X6: every spec [N:name], with [N] a non-empty string of decimal
    digits, no more of them than [int] takes, and [name] one of the nine
    names of [fcn_set], is accepted: [ff] returns the binding of the field of
    that number to the function of that name, prints nothing and leaves the
    state alone.  In particular the decimal numeral of [n] names field
    [n]. *)
Theorem ff_accepts name st :
  name ∈ fcn_set.*1 →
  ∃ f, dict_get fcn_set name = Some f
       ∧ (∀ g1, g1 ≠ "" → all_digits g1 →
                (String.length g1 ≤ int_max_str_digits)%nat →
                ff (g1 +:+ ":" +:+ name) st = (Ok (int_of_digits g1, f), st))
       ∧ (∀ n : nat,
            (String.length (pretty n) ≤ int_max_str_digits)%nat →
            ff (pretty n +:+ ":" +:+ name) st = (Ok (n, f), st)).
Proof.
  intros Hname.
  assert (∀ f, dict_get fcn_set name = Some f →
               span is_lower name = (name, "") → name ≠ "" →
               ∀ g1, g1 ≠ "" → all_digits g1 →
                 ff (g1 +:+ ":" +:+ name) st = (Ok (int_of_digits g1, f), st))
    as Hff.
  { intros f Hf Hspan Hne g1 Hg1 Hdigits. unfold ff, re_field_function.
    rewrite (span_append is_digit g1 (":" +:+ name)); [|done|].
    - destruct g1 as [|c g1]; [done|]. change (":" +:+ name) with (String ":" name).
      cbv beta iota. rewrite Hspan. destruct name as [|a name']; [done|].
      cbv beta iota. rewrite decide_True by (by left). by rewrite Hf.
    - by intros c b' [= <- _]. }
  simpl in Hname.
  repeat (apply elem_of_cons in Hname as [->|Hname]);
    [eexists; split; [reflexivity|]; split;
       [intros g1 Hg1 Hdigits _; by apply Hff
       |intros n _; destruct (pretty_nat_digits n) as (Hd & Hv & Hne);
        rewrite <- Hv at 2; by apply Hff] ..|].
  by apply elem_of_nil in Hname.
Qed.

End more_registry.

Section row_length.
Context `{PyFloat}.
Variable d : string.
Variable ffs : list (nat * reduction).

Abbreviation S := (sfield_set ffs).
Abbreviation key := (make_comparable ffs).



End row_length.

(** ** The pick operation *)

(** The arguments of [op_pick] that the operation reads: [args.fields] and
    [args.delimiter]. *)
Record pick_args : Type := PickArgs {
  pick_fields : string;
  pick_delimiter : string;
}.

(** [s.split(c)] for a separator of one character. *)
Fixpoint split (c : ascii) (s : string) : list string :=
  match s with
  | EmptyString => [""]
  | String x s' =>
      if decide (x = c) then "" :: split c s'
      else match split c s' with
           | h :: t => String x h :: t
           | [] => [String x ""]
           end
  end.

(** [l[n]] for any integer [n]: a negative [n] counts from the end. *)
Definition getitem {A} (l : list A) (n : Z) : result A :=
  if decide (0 ≤ n)%Z then index l (Z.to_nat n)
  else if decide (- Z.of_nat (length l) ≤ n)%Z
       then index l (Z.to_nat (Z.of_nat (length l) + n))
       else Raise IndexError.

Section op_pick.
(** [int(x)] on a string is Python's; [None] stands for [ValueError]. *)
Variable py_int : string → option Z.

Definition int (x : string) : result Z :=
  match py_int x with
  | Some z => Ok z
  | None => Raise ValueError
  end.

(** The function [op_pick] hands to [csv_rows]:
    [print(args.delimiter.join([row[n] for n in fields]))]. *)
Definition pick_row (d : string) (fields : list Z) (row : list string)
    : M unit :=
  let* picked := lift (rmap (getitem row) fields) in
  print (Joined d picked).

Definition op_pick (a : pick_args) (rows : list (list string)) : M unit :=
  let* fields := lift (rmap int (split "," (pick_fields a))) in
  csv_rows rows (pick_row (pick_delimiter a) fields).

(** Every index of [fields] is in range for [row]. *)
Definition pickable (fields : list Z) (row : list string) : Prop :=
  Forall (λ n, - Z.of_nat (length row) ≤ n < Z.of_nat (length row))%Z fields.

#[global] Instance pickable_dec fields row : Decision (pickable fields row).
Proof. unfold pickable. apply _. Defined.

(** The field of [row] that the index [n] names. *)
Definition item (row : list string) (n : Z) : string :=
  default "" (row !! Z.to_nat (if decide (0 ≤ n)%Z then n
                               else Z.of_nat (length row) + n)%Z).

Lemma getitem_in_range (row : list string) n :
  (- Z.of_nat (length row) ≤ n < Z.of_nat (length row))%Z →
  getitem row n = Ok (item row n).
Proof.
  intros Hn. unfold getitem, item.
  destruct (decide (0 ≤ n)%Z).
  - apply index_field. lia.
  - rewrite decide_True by lia. apply index_field. lia.
Qed.

Lemma getitem_out_of_range (row : list string) n :
  ¬ (- Z.of_nat (length row) ≤ n < Z.of_nat (length row))%Z →
  getitem row n = Raise IndexError.
Proof.
  intros Hn. unfold getitem. destruct (decide (0 ≤ n)%Z).
  - apply index_out_of_range. lia.
  - by rewrite decide_False by lia.
Qed.

Lemma rmap_getitem_pickable fields row :
  pickable fields row → rmap (getitem row) fields = Ok (item row <$> fields).
Proof.
  induction 1 as [|n fields Hn _ IH]; [done|].
  simpl. by rewrite getitem_in_range, IH.
Qed.

Lemma rmap_getitem_unpickable fields row :
  ¬ pickable fields row → rmap (getitem row) fields = Raise IndexError.
Proof.
  unfold pickable. induction fields as [|n fields IH]; intros Hno.
  - destruct Hno. constructor.
  - simpl.
    destruct (decide (- Z.of_nat (length row) ≤ n < Z.of_nat (length row))%Z)
      as [Hn|Hn].
    + rewrite getitem_in_range by done. simpl. rewrite IH; [done|].
      intros Hall. apply Hno. by constructor.
    + by rewrite getitem_out_of_range.
Qed.

Lemma pick_rows_from d fields pre rest :
  Forall (pickable fields) pre →
  (∀ row rest', rest = row :: rest' → ¬ pickable fields row) →
  ∀ c agg out,
    csv_rows (pre ++ rest) (pick_row d fields) (MState c agg out)
    = (match rest with [] => Ok tt | _ :: _ => Raise IndexError end,
       MState c agg
         (out ++ (Joined d <$> ((λ row, item row <$> fields) <$> pre)))).
Proof.
  intros Hpre Hrest c agg. unfold csv_rows.
  induction Hpre as [|row pre Hrow _ IH]; intros out.
  - rewrite app_nil_r. destruct rest as [|row rest']; [done|].
    cbn [app for_]. unfold bind at 1, pick_row, bind at 1, lift.
    by rewrite rmap_getitem_unpickable by eauto.
  - cbn [app for_]. unfold bind at 1.
    unfold pick_row at 1, bind at 1, lift. rewrite rmap_getitem_pickable by done.
    unfold print. cbn [cmp_line aggregate_values stdout].
    rewrite IH. rewrite !fmap_cons. by rewrite <- app_assoc.
Qed.

Lemma rows_until_unpickable fields rows :
  ∃ pre rest,
    rows = pre ++ rest
    ∧ Forall (pickable fields) pre
    ∧ (∀ row rest', rest = row :: rest' → ¬ pickable fields row).
Proof.
  induction rows as [|row rows (pre & rest & -> & Hpre & Hrest)].
  - exists [], []. by split; [|split].
  - destruct (decide (pickable fields row)) as [Hrow|Hrow].
    + exists (row :: pre), rest. split; [done|]. split; [by constructor|done].
    + exists [], (row :: pre ++ rest). split; [done|]. split; [constructor|].
      by intros ? ? [= <- _].
Qed.

(** X9: what a pick over rows prints.  The rows before the first one for
    which an index of [fields] is out of range are printed, each as the
    fields the indices name, in the order of [fields] (a negative index
    counting from the end of the row); at that row the run raises
    [IndexError], and if there is no such row it returns. *)
Theorem pick_rows_until_out_of_range d fields rows :
  ∃ pre rest,
    rows = pre ++ rest
    ∧ Forall (pickable fields) pre
    ∧ (∀ row rest', rest = row :: rest' → ¬ pickable fields row)
    ∧ csv_rows rows (pick_row d fields) initial
      = (match rest with [] => Ok tt | _ :: _ => Raise IndexError end,
         MState None ∅ (Joined d <$> ((λ row, item row <$> fields) <$> pre))).
Proof.
  destruct (rows_until_unpickable fields rows) as (pre & rest & -> & Hpre & Hrest).
  exists pre, rest. split; [done|]. split; [done|]. split; [done|].
  apply (pick_rows_from d fields pre rest Hpre Hrest).
Qed.

(** *** Indices *)

(** The position in a list of length [len] that the index [n] names. *)
Definition position (len : nat) (n : Z) : option nat :=
  if decide (- Z.of_nat len ≤ n < Z.of_nat len)%Z then
    Some (Z.to_nat (if decide (0 ≤ n)%Z then n else Z.of_nat len + n)%Z)
  else None.

Lemma getitem_position {A} (l : list A) n :
  getitem l n = match position (length l) n with
                | Some i => index l i
                | None => Raise IndexError
                end.
Proof.
  unfold getitem, position.
  destruct (decide (0 ≤ n)%Z); case_decide; try done; try lia.
  - unfold index. by rewrite lookup_ge_None_2 by lia.
  - by rewrite decide_True by lia.
  - by rewrite decide_False by lia.
Qed.

Lemma position_lt len n i : position len n = Some i → (i < len)%nat.
Proof. unfold position. case_decide; [|done]. intros [= <-]. case_decide; lia. Qed.

(** X10: both ways of naming a field.  In a row the field with [i] fields
    before it is named by the index [i], and the field with [k] fields after
    it by the index [-(k+1)]: [-1] is the last field. *)
Theorem getitem_both_ends {A} (pre post : list A) x :
  getitem (pre ++ x :: post) (Z.of_nat (length pre)) = Ok x
  ∧ getitem (pre ++ x :: post) (- Z.of_nat (length post) - 1) = Ok x.
Proof.
  unfold getitem, index. split.
  - rewrite decide_True by lia. rewrite Nat2Z.id.
    by rewrite list_lookup_middle.
  - rewrite decide_False by lia. rewrite length_app. cbn [length].
    rewrite decide_True by lia.
    replace (Z.to_nat _) with (length pre) by lia.
    by rewrite list_lookup_middle.
Qed.

Lemma pick_compose (row : list string) fields1 fields2 fields12 :
  pickable fields1 row →
  rmap (getitem fields1) fields2 = Ok fields12 →
  rmap (getitem (item row <$> fields1)) fields2
  = rmap (getitem row) fields12.
Proof.
  intros Hrow. revert fields12.
  induction fields2 as [|n fields2 IH]; intros fields12 H12.
  - by injection H12 as <-.
  - simpl in H12. destruct (getitem fields1 n) as [m|] eqn:Hm; [|done].
    simpl in H12.
    destruct (rmap (getitem fields1) fields2) as [ms|] eqn:Hms; [|done].
    injection H12 as <-. simpl. rewrite (IH ms eq_refl).
    rewrite getitem_position in Hm. rewrite getitem_position, length_fmap.
    destruct (position (length fields1) n) as [i|]; [|done].
    unfold index in *. rewrite list_lookup_fmap.
    destruct (fields1 !! i) as [m'|] eqn:Hi; [|done]. injection Hm as ->.
    simpl. rewrite getitem_in_range; [done|].
    unfold pickable in Hrow. rewrite Forall_forall in Hrow. apply Hrow.
    by eapply list_elem_of_lookup_2.
Qed.

Lemma pick_rows_compose d fields1 fields2 fields12 rows :
  Forall (pickable fields1) rows →
  rmap (getitem fields1) fields2 = Ok fields12 →
  ∀ st,
    csv_rows ((λ row, item row <$> fields1) <$> rows) (pick_row d fields2) st
    = csv_rows rows (pick_row d fields12) st.
Proof.
  intros Hrows H12. unfold csv_rows.
  induction Hrows as [|row rows Hrow _ IH]; intros st; [done|].
  assert (∀ st0, pick_row d fields2 (item row <$> fields1) st0
                 = pick_row d fields12 row st0) as Hstep.
  { intros st0. unfold pick_row, bind, lift.
    by rewrite (pick_compose row fields1 fields2 fields12 Hrow H12). }
  rewrite fmap_cons. cbn [for_]. unfold bind. rewrite Hstep.
  destruct (pick_row d fields12 row st) as [[[]|e] st']; [apply IH|done].
Qed.

(** X11: a pick of a pick is a pick.  When a pick with [fields1] returns
    and the reader reads the text it printed back as the rows of fields that
    were printed, picking [fields2] from that text does what picking from
    the input the indices that [fields2] names in [fields1] does: the same
    lines, the same result. *)
Theorem pick_of_pick `{CsvReader} d fields1 fields2 fields12 rows st1 :
  csv_rows rows (pick_row d fields1) initial = (Ok tt, st1) →
  rmap (getitem fields1) fields2 = Ok fields12 →
  read_rows d (stdout_text st1) = (stdout_rows st1, None) →
  csv_rows_text d (stdout_text st1) (pick_row d fields2) initial
  = csv_rows rows (pick_row d fields12) initial.
Proof.
  intros Hrun H12 Hread.
  rewrite (csv_rows_text_read d _ _ _ initial Hread). clear Hread.
  destruct (pick_rows_until_out_of_range d fields1 rows)
    as (pre & rest & -> & Hpre & _ & Hrun').
  rewrite Hrun in Hrun'. destruct rest as [|? ?]; [|done].
  injection Hrun' as ->. rewrite app_nil_r.
  rewrite (stdout_rows_joined d (MState None ∅ _)
             ((λ row, item row <$> fields1) <$> pre) eq_refl).
  by apply pick_rows_compose.
Qed.

(** *** The field list *)

Lemma concat_split c s : String.concat (String c "") (split c s) = s.
Proof.
  induction s as [|x s IH]; [done|]. simpl. case_decide as Hx.
  - subst x. simpl. destruct (split c s) as [|h t] eqn:E.
    + by destruct s; simpl in E; repeat case_match.
    + by rewrite IH.
  - destruct (split c s) as [|h t] eqn:E.
    + by destruct s; simpl in E; repeat case_match.
    + simpl in *. destruct t; simpl in *; by rewrite <- IH.
Qed.

(** X12: the field list is read before any row.  When [int] refuses a
    piece of [args.fields] between two commas (as it does the empty piece of
    a trailing comma, or of the empty default) the run raises [ValueError]
    with nothing printed, whatever the rows; when it accepts them all, the
    run picks the integers it gave, in their order. *)
Theorem op_pick_reads_fields fs d rows :
  (Exists (λ x, py_int x = None) (split "," fs) →
   op_pick (PickArgs fs d) rows initial = (Raise ValueError, initial))
  ∧ (∀ fields,
       Forall2 (λ x z, py_int x = Some z) (split "," fs) fields →
       op_pick (PickArgs fs d) rows initial
       = csv_rows rows (pick_row d fields) initial).
Proof.
  unfold op_pick, bind at 1 2, lift. simpl pick_fields. simpl pick_delimiter.
  split.
  - intros Hbad. replace (rmap int (split "," fs)) with (@Raise (list Z) ValueError);
      [done|].
    induction Hbad as [x l Hx|x l _ IH]; simpl; unfold int at 1.
    + by rewrite Hx.
    + destruct (py_int x); [|done]. simpl. by rewrite <- IH.
  - intros fields Hall. replace (rmap int (split "," fs)) with (Ok fields); [done|].
    induction Hall as [|x z l zs Hx _ IH]; [done|].
    simpl. unfold int at 1. rewrite Hx. simpl. by rewrite <- IH.
Qed.
End op_pick.

(** ** The sort operation *)

(** [list.sort] is stable and compares the keys with [<] only.  For keys
    on which [<] is a strict weak order (all [str] and [int] keys, and
    [float] keys among which there is no nan) the outcome is the one stable
    arrangement in non-decreasing order, whatever the algorithm;
    [stable_sort] computes it by insertion, comparing with [lt] only. *)
Section stable_sort.
Context {A : Type}.
Variable lt : A → A → bool.

Fixpoint insert_sorted (x : A) (l : list A) : list A :=
  match l with
  | [] => [x]
  | y :: l' => if lt y x then y :: insert_sorted x l' else x :: l
  end.

Definition stable_sort (l : list A) : list A := foldr insert_sorted [] l.

Lemma insert_sorted_perm x l : insert_sorted x l ≡ₚ x :: l.
Proof.
  induction l as [|y l IH]; [done|]. simpl. destruct (lt y x); [|done].
  rewrite IH. apply Permutation_swap.
Qed.

Lemma stable_sort_perm l : stable_sort l ≡ₚ l.
Proof.
  induction l as [|x l IH]; [done|]. simpl.
  by rewrite insert_sorted_perm, IH.
Qed.

(** The order a sort by [lt] makes of an order [P] that held before:
    smaller first, and [P] among those that [lt] does not tell apart. *)
Definition refine (P : A → A → Prop) (x y : A) : Prop :=
  lt x y = true ∨ (lt x y = false ∧ lt y x = false ∧ P x y).

Section orders.
(** [lt] is a strict weak order on the elements that satisfy [D]. *)
Variable D : A → Prop.
Hypothesis lt_asym : ∀ x y, D x → D y → lt x y = true → lt y x = false.
Hypothesis lt_negtrans : ∀ x y z,
  D x → D y → D z → lt x y = false → lt y z = false → lt x z = false.

Lemma insert_sorted_refine (P : A → A → Prop) x l :
  D x → Forall D l → Forall (P x) l →
  StronglySorted (refine P) l →
  StronglySorted (refine P) (insert_sorted x l).
Proof.
  intros Hx HD HP Hs.
  induction Hs as [|y l Hs IH Hy]; simpl.
  { repeat constructor. }
  inversion_clear HP as [|? ? HPy HPl]. inversion_clear HD as [|? ? HDy HDl].
  destruct (lt y x) eqn:Hyx.
  - constructor; [by apply IH|].
    rewrite insert_sorted_perm. constructor; [by left|done].
  - assert (Forall (λ z, lt z x = false) l) as Hge.
    { rewrite Forall_forall in Hy, HDl. apply Forall_forall. intros z Hz.
      assert (lt z y = false) as Hzy.
      { destruct (Hy z Hz) as [Hyz|(_ & Hzy & _)]; [|done].
        apply lt_asym; auto. }
      apply (lt_negtrans z y x); auto. }
    constructor; [by constructor|].
    constructor.
    + destruct (lt x y) eqn:Hxy; [by left|by right].
    + rewrite Forall_forall in Hge, HPl. apply Forall_forall. intros z Hz.
      destruct (lt x z) eqn:Hxz; [by left|right]. auto.
Qed.

Lemma stable_sort_refine (P : A → A → Prop) l :
  Forall D l → StronglySorted P l →
  StronglySorted (refine P) (stable_sort l).
Proof.
  intros HD Hs. induction Hs as [|x l Hs IH Hx]; simpl; [constructor|].
  inversion_clear HD as [|? ? HDx HDl].
  apply insert_sorted_refine; [done|..|by apply IH].
  - by rewrite stable_sort_perm.
  - by rewrite stable_sort_perm.
Qed.
End orders.

(** Elements that [lt] does not order among themselves keep their order. *)
Lemma insert_sorted_filter (D Q : A → Prop) `{∀ x, Decision (Q x)} x l :
  D x → Forall D l →
  (∀ x y, D x → D y → Q x → Q y → lt y x = false) →
  filter Q (insert_sorted x l) = filter Q (x :: l).
Proof.
  intros HDx HD HQ. induction HD as [|y l HDy HD IH]; [done|]. simpl.
  destruct (lt y x) eqn:Hyx; [|done].
  rewrite !filter_cons, IH, filter_cons.
  destruct (decide (Q y)) as [Hy|Hy], (decide (Q x)) as [Hx|Hx]; try done.
  by rewrite HQ in Hyx.
Qed.

Lemma stable_sort_filter (D Q : A → Prop) `{∀ x, Decision (Q x)} l :
  Forall D l →
  (∀ x y, D x → D y → Q x → Q y → lt y x = false) →
  filter Q (stable_sort l) = filter Q l.
Proof.
  intros HD HQ. induction HD as [|x l HDx HD IH]; [done|]. simpl.
  rewrite (insert_sorted_filter D) by (done || by rewrite stable_sort_perm).
  by rewrite !filter_cons, IH.
Qed.

(** A list in which no element is less than an earlier one stays as it
    is. *)
Lemma stable_sort_sorted l :
  StronglySorted (λ x y, lt y x = false) l → stable_sort l = l.
Proof.
  induction 1 as [|x l Hs IH Hx]; [done|]. simpl. rewrite IH.
  destruct Hx as [|y l Hy _]; [done|]. simpl. by rewrite Hy.
Qed.
End stable_sort.

(** The order of strings: [String.ltb] compares character by character,
    as Python compares [str] values. *)
Lemma string_compare_refl s : String.compare s s = Eq.
Proof.
  induction s as [|c s IH]; [done|]. simpl.
  unfold Ascii.compare. by rewrite N.compare_refl.
Qed.

Lemma string_ltb_irrefl s : String.ltb s s = false.
Proof. unfold String.ltb. by rewrite string_compare_refl. Qed.

Lemma string_ltb_asym s1 s2 :
  String.ltb s1 s2 = true → String.ltb s2 s1 = false.
Proof.
  unfold String.ltb. rewrite (String.compare_antisym s2 s1).
  by destruct (String.compare s1 s2).
Qed.

Lemma string_ltb_negtrans s1 : ∀ s2 s3,
  String.ltb s1 s2 = false → String.ltb s2 s3 = false →
  String.ltb s1 s3 = false.
Proof.
  unfold String.ltb.
  induction s1 as [|c1 s1 IH]; intros [|c2 s2] [|c3 s3]; simpl; try done.
  unfold Ascii.compare.
  destruct (N.compare_spec (N_of_ascii c1) (N_of_ascii c2)) as [E12|L12|G12];
    destruct (N.compare_spec (N_of_ascii c2) (N_of_ascii c3)) as [E23|L23|G23];
    destruct (N.compare_spec (N_of_ascii c1) (N_of_ascii c3)) as [E13|L13|G13];
    try done; try lia.
  apply IH.
Qed.

Module sort.

(** The scalar types of [op_sort]: [str], [float] and [int]. *)
Inductive key_type : Type := KStr | KFloat | KInt.

(** The arguments of [op_sort] that the operation reads. *)
Record args : Type := Args {
  delimiter : string;
  fields : list string;
}.

(** [re.search("^([0-9]+)(:[a-z]+)?$", s)]: the two groups, the second
    absent when the optional part matched nothing. *)
Definition re_field (s : string) : option (string * option string) :=
  let '(g1, r1) := span is_digit s in
  match g1 with
  | EmptyString => None
  | String _ _ =>
      if decide (r1 = "" ∨ r1 = newline) then Some (g1, None)
      else
        match r1 with
        | String ":" r2 =>
            let '(g2, r3) := span is_lower r2 in
            match g2 with
            | String _ _ =>
                if decide (r3 = "" ∨ r3 = newline)
                then Some (g1, Some (String ":" g2)) else None
            | EmptyString => None
            end
        | _ => None
        end
  end.

Definition ff (s : string) : M (nat * key_type) :=
  match re_field s with
  | None => fatal ("unable to interpret field " +:+ s)
  | Some (g1, g2) =>
      if decide (g2 = None ∨ g2 = Some ":string")
      then ret (int_of_digits g1, KStr)
      else if decide (g2 = Some ":float") then ret (int_of_digits g1, KFloat)
      else if decide (g2 = Some ":int") then ret (int_of_digits g1, KInt)
      else fatal ("unknown type for field/type pair: " +:+ s)
  end.

Section op_sort.
Context `{PyFloat}.
(** [int(x)] on a string and [x < y] on floats are Python's. *)
Variable py_int : string → option Z.
Variable float_lt : pyfloat → pyfloat → bool.

(** The values of the keys. *)
Inductive sort_key : Type :=
  | SStr (s : string)
  | SFloat (x : pyfloat)
  | SInt (z : Z).

(** [fcn(v)] for [fcn] one of [str], [float], [int]. *)
Definition convert (t : key_type) (v : string) : result sort_key :=
  match t with
  | KStr => Ok (SStr v)
  | KFloat => try x := float v in Ok (SFloat x)
  | KInt => try z := int py_int v in Ok (SInt z)
  end.

(** [a < b] on keys; the keys of one sort are of one type. *)
Definition key_lt (a b : sort_key) : bool :=
  match a, b with
  | SStr a, SStr b => String.ltb a b
  | SFloat a, SFloat b => float_lt a b
  | SInt a, SInt b => Z.ltb a b
  | _, _ => false
  end.

(** The key function of a sort: [lambda row: fcn(row[n])]. *)
Definition key_of (f : nat * key_type) (row : list string) : result sort_key :=
  try v := index row f.1 in convert f.2 v.

(** [row_list.sort(key=lambda row: fcn(row[n]))]: the keys are computed
    for the whole list first, then the rows are arranged by their keys. *)
Definition sort_pass (f : nat * key_type) (row_list : list (list string))
    : result (list (list string)) :=
  try keys := rmap (key_of f) row_list in
  Ok ((stable_sort (λ a b, key_lt a.1 b.1) (zip keys row_list)).*2).

(** [for n, fcn in fields: row_list.sort(...)]. *)
Fixpoint sort_passes (fs : list (nat * key_type))
    (row_list : list (list string)) : result (list (list string)) :=
  match fs with
  | [] => Ok row_list
  | f :: fs' => try l := sort_pass f row_list in sort_passes fs' l
  end.

(** The part of [op_sort] after the specs are parsed.  [csv_rows] with
    [row_list.append] collects the rows, which cannot raise. *)
Definition sort_rows (d : string) (fs : list (nat * key_type))
    (rows : list (list string)) : M unit :=
  let row_list := foldl (λ l row, l ++ [row]) [] rows in
  let* sorted := lift (sort_passes fs row_list) in
  for_ sorted (λ row, print (Joined d row)).

Definition op_sort (a : args) (rows : list (list string)) : M unit :=
  let* fs := mmap ff (fields a) in
  sort_rows (delimiter a) fs rows.

(** *** A sort in terms of the rows *)

(** One row is less than another for the sort field [f]. *)
Definition row_lt (f : nat * key_type) (r1 r2 : list string) : bool :=
  match key_of f r1, key_of f r2 with
  | Ok a, Ok b => key_lt a b
  | _, _ => false
  end.

Definition has_key (f : nat * key_type) (row : list string) : Prop :=
  ∃ k, key_of f row = Ok k.

Lemma rmap_Forall2 {A B} (g : A → result B) l ks :
  rmap g l = Ok ks ↔ Forall2 (λ x k, g x = Ok k) l ks.
Proof.
  revert ks. induction l as [|x l IH]; intros ks; simpl.
  - split; [intros [= <-]; constructor|by inversion 1].
  - destruct (g x) as [k|e] eqn:Ek; simpl.
    + destruct (rmap g l) as [ks'|e] eqn:Er; simpl.
      * split.
        -- intros [= <-]. constructor; [done|]. by apply IH.
        -- inversion 1 as [|? k' ? ks'' Hk Hks]; subst.
           apply IH in Hks. congruence.
      * split; [done|]. inversion 1 as [|? k' ? ks'' Hk Hks]; subst.
        by apply IH in Hks.
    + split; [done|]. inversion 1; congruence.
Qed.

Lemma rmap_raise_Exists {A B} (g : A → result B) l e :
  rmap g l = Raise e → Exists (λ x, ∀ k, g x ≠ Ok k) l.
Proof.
  induction l as [|x l IH]; simpl; [done|].
  destruct (g x) as [k|e'] eqn:Ek; simpl.
  - destruct (rmap g l) as [ks'|e'']; simpl; [done|].
    intros [= <-]. apply Exists_cons_tl. by apply IH.
  - intros _. apply Exists_cons_hd. intros k. congruence.
Qed.

Lemma insert_decorated f k x (L : list (sort_key * list string)) :
  key_of f x = Ok k →
  Forall (λ p, key_of f p.2 = Ok p.1) L →
  (insert_sorted (λ a b, key_lt a.1 b.1) (k, x) L).*2
  = insert_sorted (row_lt f) x (L.*2).
Proof.
  intros Hk. induction 1 as [|[k' y] L Hy _ IH]; [done|].
  simpl in *. unfold row_lt at 1. rewrite Hy, Hk.
  destruct (key_lt k' k); simpl; [f_equal; apply IH|done].
Qed.

Lemma stable_sort_decorated f l ks :
  Forall2 (λ x k, key_of f x = Ok k) l ks →
  Forall (λ p, key_of f p.2 = Ok p.1)
         (stable_sort (λ a b, key_lt a.1 b.1) (zip ks l))
  ∧ (stable_sort (λ a b, key_lt a.1 b.1) (zip ks l)).*2
    = stable_sort (row_lt f) l.
Proof.
  induction 1 as [|x k l ks Hk _ [IHd IHs]]; [by split|].
  simpl. split.
  - rewrite insert_sorted_perm. by constructor.
  - rewrite (insert_decorated f) by done. by rewrite IHs.
Qed.

(** A sort either raises, when a row has no key, or arranges the rows by
    [row_lt]. *)
Lemma sort_pass_cases f l :
  (Forall (has_key f) l ∧ sort_pass f l = Ok (stable_sort (row_lt f) l))
  ∨ (¬ Forall (has_key f) l ∧ ∃ e, sort_pass f l = Raise e).
Proof.
  unfold sort_pass. destruct (rmap (key_of f) l) as [ks|e] eqn:E; simpl.
  - left. apply rmap_Forall2 in E. split.
    + eapply Forall2_Forall_l; [exact E|]. apply Forall_true.
      intros k x Hk. by exists k.
    + f_equal. by apply stable_sort_decorated.
  - right. split; [|by eauto]. apply rmap_raise_Exists in E.
    intros Hall. rewrite Forall_forall in Hall. apply Exists_exists in E.
    destruct E as (x & Hx & Hno). destruct (Hall x Hx) as [k Hk].
    by apply (Hno k).
Qed.

(** Every row has a key for every sort field. *)
Definition sortable (fs : list (nat * key_type)) (rows : list (list string))
    : Prop :=
  Forall (λ f, Forall (has_key f) rows) fs.

Lemma sortable_perm fs l l' : l ≡ₚ l' → sortable fs l → sortable fs l'.
Proof.
  intros Hp Hs. unfold sortable in *. eapply Forall_impl; [exact Hs|].
  intros f Hf. by rewrite <- Hp.
Qed.

Lemma sort_passes_cases fs : ∀ l,
  (sortable fs l ∧ ∃ l', sort_passes fs l = Ok l' ∧ l' ≡ₚ l)
  ∨ (¬ sortable fs l ∧ ∃ e, sort_passes fs l = Raise e).
Proof.
  induction fs as [|f fs IH]; intros l; simpl.
  { left. split; [constructor|]. by exists l. }
  destruct (sort_pass_cases f l) as [[Hf ->]|[Hf [e ->]]]; simpl.
  - pose proof (stable_sort_perm (row_lt f) l) as Hp.
    destruct (IH (stable_sort (row_lt f) l)) as [[Hs (l' & -> & Hl')]|[Hs [e ->]]].
    + left. split.
      * constructor; [done|]. by eapply sortable_perm.
      * exists l'. split; [done|]. by rewrite Hl'.
    + right. split; [|by eauto]. intros Hall. apply Hs.
      inversion_clear Hall. eapply sortable_perm; [|done]. done.
  - right. split; [|by eauto]. by inversion 1.
Qed.

Lemma collected_from (rows : list (list string)) : ∀ acc,
  foldl (λ l row, l ++ [row]) acc rows = acc ++ rows.
Proof.
  induction rows as [|row rows IH]; intros acc; simpl.
  - by rewrite app_nil_r.
  - rewrite IH. by rewrite <- app_assoc.
Qed.

Lemma collected (rows : list (list string)) :
  foldl (λ l row, l ++ [row]) [] rows = rows.
Proof. apply collected_from. Qed.

Lemma print_rows d l : ∀ c agg out,
  for_ l (λ row, print (Joined d row)) (MState c agg out)
  = (Ok tt, MState c agg (out ++ (Joined d <$> l))).
Proof.
  induction l as [|row l IH]; intros c agg out; simpl.
  - by rewrite app_nil_r.
  - unfold bind, print. simpl. rewrite IH. by rewrite <- app_assoc.
Qed.

Lemma sort_rows_eq d fs rows :
  sort_rows d fs rows initial
  = match sort_passes fs rows with
    | Ok l => (Ok tt, MState None ∅ (Joined d <$> l))
    | Raise e => (Raise e, initial)
    end.
Proof.
  unfold sort_rows, bind, lift. rewrite collected.
  destruct (sort_passes fs rows) as [l|e]; [|done]. apply print_rows.
Qed.

(** X13: a sort prints all the rows or nothing.  When every row has a key
    for every sort field (the field exists and its type accepts the value)
    the run returns and its lines are the rows, rearranged; otherwise the run
    raises and nothing is printed. *)
Theorem sort_rows_all_or_nothing d fs rows :
  (sortable fs rows
   ∧ ∃ st', sort_rows d fs rows initial = (Ok tt, st')
            ∧ stdout_rows st' ≡ₚ rows
            ∧ stdout st' = Joined d <$> stdout_rows st')
  ∨ (¬ sortable fs rows
     ∧ ∃ e, sort_rows d fs rows initial = (Raise e, initial)).
Proof.
  rewrite sort_rows_eq.
  destruct (sort_passes_cases fs rows) as [[Hs (l & -> & Hl)]|[Hs [e ->]]].
  - left. split; [done|]. eexists. split; [done|].
    rewrite (stdout_rows_joined d (MState None ∅ _) l eq_refl). done.
  - right. split; [done|]. by exists e.
Qed.
(** *** The order of the output *)

(** The order the sorts leave: rows ordered by the last sort field; rows
    that it does not tell apart, by the field before it; and so on. *)
Definition order_after (fs : list (nat * key_type))
    : list string → list string → Prop :=
  foldl (λ P f, refine (row_lt f) P) (λ _ _, True) fs.

(** [<] on floats is a strict weak order on the floats that satisfy [X]. *)
Definition float_ordered (X : pyfloat → Prop) : Prop :=
  (∀ x y, X x → X y → float_lt x y = true → float_lt y x = false)
  ∧ (∀ x y z, X x → X y → X z →
       float_lt x y = false → float_lt y z = false → float_lt x z = false).

(** The floats of field [n] in the rows. *)
Definition float_column (n : nat) (rows : list (list string)) (x : pyfloat)
    : Prop :=
  ∃ row v, row ∈ rows ∧ row !! n = Some v ∧ float_of_str v = Some x.

Lemma key_of_inv n t row k :
  key_of (n, t) row = Ok k →
  ∃ v, row !! n = Some v ∧ convert t v = Ok k.
Proof.
  unfold key_of, index. simpl. destruct (row !! n) as [v|]; [|done].
  intros Hk. by exists v.
Qed.

Lemma row_lt_ordered f rows :
  (f.2 = KFloat → float_ordered (float_column f.1 rows)) →
  (∀ x y, (x ∈ rows ∧ has_key f x) → (y ∈ rows ∧ has_key f y) →
          row_lt f x y = true → row_lt f y x = false)
  ∧ (∀ x y z, (x ∈ rows ∧ has_key f x) → (y ∈ rows ∧ has_key f y) →
              (z ∈ rows ∧ has_key f z) →
              row_lt f x y = false → row_lt f y z = false →
              row_lt f x z = false).
Proof.
  destruct f as [n t]. simpl. intros Hfloat. split.
  - intros x y [Hx [kx Hkx]] [Hy [ky Hky]]. unfold row_lt. rewrite Hkx, Hky.
    apply key_of_inv in Hkx as (vx & Hvx & Hcx).
    apply key_of_inv in Hky as (vy & Hvy & Hcy).
    destruct t; simpl in Hcx, Hcy.
    + injection Hcx as <-. injection Hcy as <-. apply string_ltb_asym.
    + unfold float in Hcx, Hcy.
      destruct (float_of_str vx) as [fx|] eqn:Efx; [|done].
      destruct (float_of_str vy) as [fy|] eqn:Efy; [|done].
      injection Hcx as <-. injection Hcy as <-. simpl.
      apply (proj1 (Hfloat eq_refl)); [by exists x, vx|by exists y, vy].
    + unfold int in Hcx, Hcy.
      destruct (py_int vx) as [zx|]; [|done]. destruct (py_int vy) as [zy|]; [|done].
      injection Hcx as <-. injection Hcy as <-. simpl. lia.
  - intros x y z [Hx [kx Hkx]] [Hy [ky Hky]] [Hz [kz Hkz]]. unfold row_lt.
    rewrite Hkx, Hky, Hkz.
    apply key_of_inv in Hkx as (vx & Hvx & Hcx).
    apply key_of_inv in Hky as (vy & Hvy & Hcy).
    apply key_of_inv in Hkz as (vz & Hvz & Hcz).
    destruct t; simpl in Hcx, Hcy, Hcz.
    + injection Hcx as <-. injection Hcy as <-. injection Hcz as <-.
      apply string_ltb_negtrans.
    + unfold float in Hcx, Hcy, Hcz.
      destruct (float_of_str vx) as [fx|] eqn:Efx; [|done].
      destruct (float_of_str vy) as [fy|] eqn:Efy; [|done].
      destruct (float_of_str vz) as [fz|] eqn:Efz; [|done].
      injection Hcx as <-. injection Hcy as <-. injection Hcz as <-. simpl.
      apply (proj2 (Hfloat eq_refl));
        [by exists x, vx|by exists y, vy|by exists z, vz].
    + unfold int in Hcx, Hcy, Hcz.
      destruct (py_int vx) as [zx|]; [|done]. destruct (py_int vy) as [zy|]; [|done].
      destruct (py_int vz) as [zz|]; [|done].
      injection Hcx as <-. injection Hcy as <-. injection Hcz as <-. simpl. lia.
Qed.

Lemma sort_passes_sorted rows fs : ∀ (P : list string → list string → Prop) l l',
  (∀ f, f ∈ fs → f.2 = KFloat → float_ordered (float_column f.1 rows)) →
  Forall (λ r, r ∈ rows) l →
  StronglySorted P l →
  sort_passes fs l = Ok l' →
  StronglySorted (foldl (λ P f, refine (row_lt f) P) P fs) l'.
Proof.
  induction fs as [|f fs IH]; intros P l l' Hfloat Hin Hs Hrun; simpl in *.
  { by injection Hrun as <-. }
  destruct (sort_pass_cases f l) as [[Hf Hp]|[_ [e Hp]]]; rewrite Hp in Hrun;
    [|done].
  simpl in Hrun. apply (IH _ (stable_sort (row_lt f) l)); [| |  |done].
  - intros f' Hf'. apply Hfloat. by constructor.
  - by rewrite stable_sort_perm.
  - destruct (row_lt_ordered f rows) as [Hasym Hneg].
    { apply Hfloat. constructor. }
    eapply (stable_sort_refine _ (λ r, r ∈ rows ∧ has_key f r)); [done..| |done].
    apply Forall_and. by split.
Qed.

Lemma StronglySorted_True {A} (l : list A) : StronglySorted (λ _ _, True) l.
Proof.
  induction l as [|x l IH]; constructor; [done|]. by apply Forall_true.
Qed.

(** X14: the order of the lines of a sort.  The float keys of each
    [float] field being comparable (a strict weak order, as floats other
    than nan are), a run that returns prints the rows ordered by the last
    sort field; rows with equivalent keys there are ordered by the field
    before it; and so on back to the first. *)
Theorem sort_rows_order d fs rows st' :
  (∀ f, f ∈ fs → f.2 = KFloat → float_ordered (float_column f.1 rows)) →
  sort_rows d fs rows initial = (Ok tt, st') →
  StronglySorted (order_after fs) (stdout_rows st').
Proof.
  intros Hfloat Hrun. rewrite sort_rows_eq in Hrun.
  destruct (sort_passes fs rows) as [l|e] eqn:E; [|done].
  injection Hrun as <-.
  rewrite (stdout_rows_joined d (MState None ∅ _) l eq_refl).
  apply (sort_passes_sorted rows fs _ rows l Hfloat); [|apply StronglySorted_True|done].
  by apply Forall_forall.
Qed.

(** *** Stability *)

(** The rows that no sort field tells apart from [r0]: for every sort
    field, neither key is less than the other. *)
Definition tied (fs : list (nat * key_type)) (r0 r : list string) : Prop :=
  Forall (λ f, row_lt f r r0 = false ∧ row_lt f r0 r = false) fs.

#[global] Instance tied_dec fs r0 r : Decision (tied fs r0 r).
Proof. unfold tied. apply _. Defined.

Lemma sort_passes_filter (rows : list (list string))
    (Q : list string → Prop)
    `{∀ x, Decision (Q x)} fs :
  ∀ l l',
    Forall (λ r, r ∈ rows) l →
    (∀ f x y, f ∈ fs →
       (x ∈ rows ∧ has_key f x) → (y ∈ rows ∧ has_key f y) →
       Q x → Q y → row_lt f y x = false) →
    sort_passes fs l = Ok l' →
    filter Q l' = filter Q l.
Proof.
  induction fs as [|f fs IH]; intros l l' Hin HQ Hrun; simpl in *.
  { by injection Hrun as <-. }
  destruct (sort_pass_cases f l) as [[Hf Hp]|[_ [e Hp]]]; rewrite Hp in Hrun;
    [|done].
  simpl in Hrun. rewrite (IH (stable_sort (row_lt f) l) l'); [| | |done].
  - apply (stable_sort_filter _ (λ r, r ∈ rows ∧ has_key f r)).
    + apply Forall_and. by split.
    + intros x y. apply HQ. constructor.
  - by rewrite stable_sort_perm.
  - intros f' x y Hf'. apply HQ. by constructor.
Qed.

(** X15: the sort is stable.  The float keys of each [float] field being
    comparable (a strict weak order, as floats other than nan are), the rows
    whose keys no sort field tells apart from those of a row [r0] of the
    input, among them the rows with the same keys, are printed in the order
    in which they were read. *)
Theorem sort_rows_stable d fs rows st' r0 :
  (∀ f, f ∈ fs → f.2 = KFloat → float_ordered (float_column f.1 rows)) →
  sort_rows d fs rows initial = (Ok tt, st') →
  r0 ∈ rows →
  filter (tied fs r0) (stdout_rows st') = filter (tied fs r0) rows.
Proof.
  intros Hfloat Hrun Hr0. rewrite sort_rows_eq in Hrun.
  destruct (sort_passes_cases fs rows) as [[Hs (l & E & _)]|[_ [e E]]];
    rewrite E in Hrun; [|done].
  injection Hrun as <-.
  rewrite (stdout_rows_joined d (MState None ∅ _) l eq_refl).
  apply (sort_passes_filter rows _ fs rows l); [by apply Forall_forall| |done].
  intros f x y Hf Hx Hy Qx Qy.
  unfold tied in Qx, Qy. rewrite Forall_forall in Qx, Qy.
  destruct (Qx f Hf) as [_ Hr0x]. destruct (Qy f Hf) as [Hyr0 _].
  destruct (row_lt_ordered f rows (Hfloat f Hf)) as [_ Hneg].
  apply (Hneg y r0 x); [done| |done|done|done].
  split; [done|]. unfold sortable in Hs. rewrite Forall_forall in Hs.
  specialize (Hs f Hf). rewrite Forall_forall in Hs. by apply Hs.
Qed.

Lemma StronglySorted_impl {A} (P Q : A → A → Prop) l :
  (∀ x y, P x y → Q x y) → StronglySorted P l → StronglySorted Q l.
Proof.
  intros HPQ. induction 1 as [|x l _ IH Hx]; constructor; [done|].
  eapply Forall_impl; [exact Hx|]. auto.
Qed.

(** X16: rows that are in order already are printed as they are.  When
    every row has a key for every sort field and no row is less, for any
    sort field, than a row before it, the run prints the rows in the order in
    which they were read. *)
Theorem sort_rows_of_sorted d fs rows :
  sortable fs rows →
  StronglySorted (λ r1 r2, Forall (λ f, row_lt f r2 r1 = false) fs) rows →
  sort_rows d fs rows initial = (Ok tt, MState None ∅ (Joined d <$> rows)).
Proof.
  intros Hs Hsorted. rewrite sort_rows_eq.
  assert (sort_passes fs rows = Ok rows) as ->; [|done].
  induction fs as [|f fs IH]; [done|]. simpl.
  inversion_clear Hs as [|? ? Hf Hfs].
  destruct (sort_pass_cases f rows) as [[_ ->]|[Hno _]]; [|done]. simpl.
  rewrite stable_sort_sorted.
  - apply IH; [done|]. eapply StronglySorted_impl; [|exact Hsorted].
    intros x y Hxy. by inversion_clear Hxy.
  - eapply StronglySorted_impl; [|exact Hsorted].
    intros x y Hxy. by inversion_clear Hxy.
Qed.
End op_sort.

(** *** The sort specs *)

Lemma span_all p a :
  Forall (λ c, p c = true) (list_ascii_of_string a) → span p a = (a, "").
Proof.
  induction a as [|c a IH]; [done|]. simpl. intros Ha.
  inversion_clear Ha as [|? ? Hc Ha']. by rewrite Hc, IH.
Qed.

Lemma re_field_plain g1 :
  g1 ≠ "" → all_digits g1 → re_field g1 = Some (g1, None).
Proof.
  intros Hne Hd. unfold re_field. rewrite span_all by done.
  destruct g1; [done|]. by rewrite decide_True by (by left).
Qed.

Lemma re_field_typed g1 t :
  g1 ≠ "" → all_digits g1 →
  t ≠ "" → Forall (λ c, is_lower c = true) (list_ascii_of_string t) →
  re_field (g1 +:+ ":" +:+ t) = Some (g1, Some (String ":" t)).
Proof.
  intros Hne Hd Hnet Ht. unfold re_field.
  rewrite (span_append is_digit g1 (":" +:+ t)); [|done|by intros c b' [= <- _]].
  destruct g1; [done|]. change (":" +:+ t) with (String ":" t).
  rewrite decide_False by (intros [?|?]; discriminate).
  cbv beta iota. rewrite span_all by done. destruct t; [done|].
  by rewrite decide_True by (by left).
Qed.

(** X17: the specs [op_sort] takes.  For [N] a non-empty string of
    decimal digits, no more of them than [int] takes, [N] and [N:string]
    both sort field [N] as text, [N:float] as floats and [N:int] as
    integers.  Whatever the number of digits, any other lower-case type name
    is refused: the message goes to standard output and the run exits with
    status 1. *)
Theorem ff_types g1 st :
  g1 ≠ "" → all_digits g1 →
  ((String.length g1 ≤ int_max_str_digits)%nat →
   ff g1 st = (Ok (int_of_digits g1, KStr), st)
   ∧ ff (g1 +:+ ":string") st = (Ok (int_of_digits g1, KStr), st)
   ∧ ff (g1 +:+ ":float") st = (Ok (int_of_digits g1, KFloat), st)
   ∧ ff (g1 +:+ ":int") st = (Ok (int_of_digits g1, KInt), st))
  ∧ ∀ t, t ≠ "" →
         Forall (λ c, is_lower c = true) (list_ascii_of_string t) →
         t ∉ ["string"; "float"; "int"] →
         ff (g1 +:+ ":" +:+ t) st
         = (Raise (SystemExit 1),
            printed st (Text ("unknown type for field/type pair: "
                              +:+ g1 +:+ ":" +:+ t))).
Proof.
  intros Hne Hd. unfold ff.
  split; [intros _; split; [|split; [|split]]|].
  - by rewrite re_field_plain.
  - change (g1 +:+ ":string") with (g1 +:+ ":" +:+ "string").
    by rewrite (re_field_typed g1 "string") by (done || by repeat constructor).
  - change (g1 +:+ ":float") with (g1 +:+ ":" +:+ "float").
    by rewrite (re_field_typed g1 "float") by (done || by repeat constructor).
  - change (g1 +:+ ":int") with (g1 +:+ ":" +:+ "int").
    by rewrite (re_field_typed g1 "int") by (done || by repeat constructor).
  - intros t Hnet Ht Hno. rewrite re_field_typed by done.
    rewrite decide_False; [|intros [?|[= ->]]; [done|]; apply Hno; set_solver].
    rewrite decide_False; [|intros [= ->]; apply Hno; set_solver].
    rewrite decide_False; [|intros [= ->]; apply Hno; set_solver].
    done.
Qed.
End sort.

(** ** An instance of the numeric interface

    Exact rational arithmetic: no rounding, no infinities and no nan;
    literals are decimal numerals without exponent, and the square root is
    truncated to 52 binary digits.  It serves to evaluate the development on
    concrete rows. *)

Module exact_float.
Definition parse (s : string) : option Qc :=
  let '(neg, s1) :=
    match s with String "-" r => (true, r) | _ => (false, s) end in
  let '(ip, r1) := span is_digit s1 in
  let '(fp, r2) :=
    match r1 with String "." r => span is_digit r | _ => ("", r1) end in
  if decide (ip ≠ "" ∧ r2 = "") then
    let m := Z.of_nat (int_of_digits (ip +:+ fp)) in
    Some (Q2Qc (Qmake (if neg : bool then - m else m)
                      (Z.to_pos (10 ^ Z.of_nat (String.length fp)))))
  else None.

Definition show (q : Qc) : string :=
  if decide (Qden q = 1%positive) then pretty (Qnum q) +:+ ".0"
  else pretty (Qnum q) +:+ "/" +:+ pretty (Zpos (Qden q)).

Definition sqrt (q : Qc) : Qc :=
  Q2Qc (Z.sqrt (Qnum q * 2 ^ 104 / Zpos (Qden q)) # 2 ^ 52).

Definition least (lt : Qc → Qc → bool) (l : list Qc) : result (pyval Qc) :=
  match l with
  | [] => Raise ValueError
  | x :: l' => Ok (VFloat (foldl (λ best y, if lt y best then y else best) x l'))
  end.

Definition ltb (x y : Qc) : bool := bool_decide (x < y)%Qc.

Definition sum (l : list Qc) : result (pyval Qc) :=
  match l with
  | [] => Ok (VInt 0)
  | _ => Ok (VFloat (foldl Qcplus 0%Qc l))
  end.

Definition mean (l : list Qc) : result (pyval Qc) :=
  match l with
  | [] => Raise StatisticsError
  | _ => Ok (VFloat (mean_Qc l))
  end.

Definition median (l : list Qc) : result (pyval Qc) :=
  let s := merge_sort Qcle l in
  let n := length s in
  if decide (n = 0)%nat then Raise StatisticsError
  else if Nat.odd n then
    match s !! (n / 2)%nat with
    | Some x => Ok (VFloat x)
    | None => Raise IndexError
    end
  else
    match s !! (n / 2 - 1)%nat, s !! (n / 2)%nat with
    | Some x, Some y => Ok (VFloat ((x + y) / Q2Qc 2)%Qc)
    | _, _ => Raise IndexError
    end.

Definition stdev (l : list Qc) : result (pyval Qc) :=
  if decide (length l < 2)%nat then Raise StatisticsError
  else Ok (VFloat (sqrt (sample_variance l))).

Lemma mapM_Some_id {A} (l : list A) : mapM Some l = Some l.
Proof. induction l as [|x l IH]; [done|]. cbn. by rewrite IH. Qed.

#[export] Program Instance instance : PyFloat := {|
  pyfloat := Qc;
  float_of_str := parse;
  str_of_float := show;
  fzero := 0%Qc;
  exact := Some;
  builtin_sum := sum;
  builtin_min := least ltb;
  builtin_max := least (λ y best, ltb best y);
  statistics_mean := mean;
  statistics_median := median;
  statistics_stdev := stdev;
|}.
Next Obligation. reflexivity. Qed.
Next Obligation. intros data Hlt. unfold stdev. by rewrite decide_True. Qed.
Next Obligation.
  intros data qs Hle Hqs Hvar. rewrite mapM_Some_id in Hqs.
  injection Hqs as <-. unfold stdev. rewrite decide_False by lia.
  rewrite Hvar. do 2 f_equal. apply Qc_is_canon. reflexivity.
Qed.
End exact_float.

(** ** An instance with a nan

    The floats of [exact_float] and a nan, which [float] reads from the
    text [nan].  A sum or a mean over a nan is the nan, no comparison with
    the nan holds, and [statistics.stdev] on two or more values with a nan
    among them raises [AttributeError] (it takes the numerator of its sum of
    squares, which is then a float).  The median over a nan depends on the
    order [sorted] leaves, which this instance does not follow: it gives the
    nan. *)

Module nan_float.
Definition parse (s : string) : option (option Qc) :=
  if decide (s = "nan") then Some None else Some <$> exact_float.parse s.

Definition show (x : option Qc) : string :=
  match x with
  | Some q => exact_float.show q
  | None => "nan"
  end.

Definition ltb (x y : option Qc) : bool :=
  match x, y with
  | Some a, Some b => exact_float.ltb a b
  | _, _ => false
  end.

Definition inject (r : result (pyval Qc)) : result (pyval (option Qc)) :=
  match r with
  | Ok (VFloat q) => Ok (VFloat (Some q))
  | Ok (VInt z) => Ok (VInt z)
  | Ok (VStr s) => Ok (VStr s)
  | Ok VNone => Ok VNone
  | Raise e => Raise e
  end.

(** [g] on data without the nan, [other] on data with it. *)
Definition on_finite (g : list Qc → result (pyval Qc))
    (other : result (pyval (option Qc))) (l : list (option Qc))
    : result (pyval (option Qc)) :=
  match mapM id l with
  | Some qs => inject (g qs)
  | None => other
  end.

Definition least (lt : option Qc → option Qc → bool) (l : list (option Qc))
    : result (pyval (option Qc)) :=
  match l with
  | [] => Raise ValueError
  | x :: l' => Ok (VFloat (foldl (λ best y, if lt y best then y else best) x l'))
  end.

Definition stdev (l : list (option Qc)) : result (pyval (option Qc)) :=
  if decide (length l < 2)%nat then Raise StatisticsError
  else on_finite exact_float.stdev (Raise AttributeError) l.

#[export] Program Instance instance : PyFloat := {|
  pyfloat := option Qc;
  float_of_str := parse;
  str_of_float := show;
  fzero := Some 0%Qc;
  exact := id;
  builtin_sum := on_finite exact_float.sum (Ok (VFloat None));
  builtin_min := least ltb;
  builtin_max := least (λ y best, ltb best y);
  statistics_mean := on_finite exact_float.mean (Ok (VFloat None));
  statistics_median := on_finite exact_float.median (Ok (VFloat None));
  statistics_stdev := stdev;
|}.
Next Obligation. reflexivity. Qed.
Next Obligation. intros data Hlt. unfold stdev. by rewrite decide_True. Qed.
Next Obligation.
  intros data qs Hle Hqs Hvar. unfold stdev, on_finite.
  rewrite decide_False by lia. rewrite Hqs.
  apply length_mapM in Hqs. unfold exact_float.stdev.
  rewrite decide_False by lia. rewrite Hvar. simpl. do 3 f_equal.
  apply Qc_is_canon. reflexivity.
Qed.
End nan_float.

(** ** Concrete runs *)

Import exact_float.

Definition rows_abc : list (list string) :=
  [["a"; "1"; "10"]; ["a"; "1"; "20"]; ["b"; "2"; "30"]].
Definition sum_2 : list (nat * reduction) := [(2, numberify builtin_sum)].
Definition first_2 : list (nat * reduction) := [(2, fcn_first)].
Definition first_last_1 : list (nat * reduction) :=
  [(1, fcn_first); (1, fcn_last)].
Definition ignore_1 : list (nat * reduction) := [(1, fcn_ignore)].
Definition rows_a12 : list (list string) := [["a"; "1"]; ["a"; "2"]].

(** What the regular expression of [ff] accepts. *)
Example re_field_function_examples :
  re_field_function "0:max" = Some ("0", "max")
  ∧ re_field_function "007:first" = Some ("007", "first")
  ∧ re_field_function ("0:max" +:+ newline) = Some ("0", "max")
  ∧ re_field_function "0:Max" = None
  ∧ re_field_function "-1:max" = None
  ∧ re_field_function ":max" = None
  ∧ re_field_function "0:max " = None.
Proof. repeat split. Qed.

(** The example of the specification; the sum is a float and prints as
    one. *)
Example merge_abc :
  stdout_lines (snd (op_merge (Args "," ["2:sum"]) rows_abc initial))
  = ["a,1,30.0"; "b,2,30.0"].
Proof. vm_compute. reflexivity. Qed.

Example merge_separated_runs :
  stdout_lines (snd (op_merge (Args "," []) [["a"]; ["b"]; ["a"]; ["a"]] initial))
  = ["a"; "b"; "a"].
Proof. vm_compute. reflexivity. Qed.

Lemma merge_one_row_per_run_witness :
  merge_rows "," sum_2 rows_abc initial
  = (Ok tt, snd (merge_rows "," sum_2 rows_abc initial))
  ∧ length (stdout_lines (snd (merge_rows "," sum_2 rows_abc initial)))
    = length (runs (project (sfield_set sum_2) 0) rows_abc).
Proof.
  assert (merge_rows "," sum_2 rows_abc initial
          = (Ok tt, snd (merge_rows "," sum_2 rows_abc initial))) as Hrun
    by (vm_compute; reflexivity).
  split; [exact Hrun|].
  exact (proj2 (proj2 (proj1 (proj2 (merge_one_row_per_run "," sum_2))
                         _ _ Hrun))).
Defined.



(** A run that prints a row and then meets a row that is too short. *)
Definition rows_cut : list (list string) := [["a"; "1"; "5"]; ["b"]].

Definition run_cut : mstate := snd (merge_rows "," sum_2 rows_cut initial).

Lemma run_cut_raises :
  merge_rows "," sum_2 rows_cut initial = (Raise IndexError, run_cut).
Proof. vm_compute. reflexivity. Defined.

Example merge_cut : stdout_lines run_cut = ["a,1,5.0"].
Proof. vm_compute. reflexivity. Qed.

Lemma flushed_row_field_order_witness :
  ∃ gs,
    gs `prefix_of` runs (make_comparable sum_2) rows_cut
    ∧ (Raise IndexError = Ok tt → gs = runs (make_comparable sum_2) rows_cut)
    ∧ stdout run_cut = Joined "," <$> stdout_rows run_cut
    ∧ Forall2 (λ g line,
                 ∃ first rest vals,
                   g = first :: rest
                   ∧ line = project (sfield_set sum_2) 0 first
                            ++ (py_str <$> vals)
                   ∧ sublist (project (sfield_set sum_2) 0 first) first
                   ∧ Forall2 (λ '(n, f) v, f (column n g) = Ok v) sum_2 vals)
              gs (stdout_rows run_cut).
Proof.
  exact (flushed_row_field_order "," sum_2 rows_cut (Raise IndexError) run_cut
           run_cut_raises).
Defined.

Definition run_a12 : mstate :=
  snd (merge_rows "," first_last_1 rows_a12 initial).

Lemma run_a12_returns :
  merge_rows "," first_last_1 rows_a12 initial = (Ok tt, run_a12).
Proof. vm_compute. reflexivity. Defined.

Lemma every_binding_contributes_witness :
  ∃ gs,
    gs `prefix_of` runs (make_comparable first_last_1) rows_a12
    ∧ (Ok tt = Ok tt → gs = runs (make_comparable first_last_1) rows_a12)
    ∧ stdout run_a12 = Joined "," <$> stdout_rows run_a12
    ∧ Forall2 (λ g line,
                 ∃ k, first_key (make_comparable first_last_1) g = Some k
                      ∧ length line = (length k + length first_last_1)%nat
                      ∧ ∀ i n f, first_last_1 !! i = Some (n, f) →
                          ∃ v, f (column n g) = Ok v
                               ∧ line !! (length k + i)%nat = Some (py_str v))
              gs (stdout_rows run_a12).
Proof.
  exact (every_binding_contributes "," first_last_1 rows_a12 (Ok tt) run_a12
           run_a12_returns).
Defined.

(** C3, as the claim has it: with [1:first] and [1:last] the run prints
    [a,1,2], which is not what the last binding alone prints, [a,2]. *)
Lemma last_binding_wins_fails :
  stdout_lines (snd (merge_rows "," first_last_1 rows_a12 initial))
  ≠ stdout_lines
      (snd (merge_rows "," (last_bindings first_last_1) rows_a12 initial)).
Proof. vm_compute. discriminate. Qed.

Example merge_first_last :
  stdout_lines (snd (op_merge (Args "," ["1:first"; "1:last"]) rows_a12 initial))
  = ["a,1,2"]
  ∧ stdout_lines (snd (op_merge (Args "," ["1:last"]) rows_a12 initial))
    = ["a,2"].
Proof. split; vm_compute; reflexivity. Qed.

Definition run_ignore : mstate :=
  snd (merge_rows "," ignore_1 [["a"; "1"]] initial).

Lemma run_ignore_returns :
  merge_rows "," ignore_1 [["a"; "1"]] initial = (Ok tt, run_ignore).
Proof. vm_compute. reflexivity. Defined.

Lemma ignore_contributes_None_witness :
  Forall2 (λ g line,
             ∃ k, first_key (make_comparable ignore_1) g = Some k
                  ∧ length line = (length k + length ignore_1)%nat
                  ∧ line !! (length k + 0)%nat = Some "None")
          (runs (make_comparable ignore_1) [["a"; "1"]])
          (stdout_rows run_ignore).
Proof.
  exact (ignore_contributes_None "," ignore_1 [["a"; "1"]] run_ignore 0 1
           run_ignore_returns eq_refl).
Defined.

Example merge_ignore :
  stdout_lines (snd (op_merge (Args "," ["1:ignore"]) [["a"; "1"]] initial))
  = ["a,None"].
Proof. vm_compute. reflexivity. Qed.




Definition max_9 : list (nat * reduction) := [(9, numberify builtin_max)].

Lemma out_of_range_index_is_fatal_witness :
  ∃ e st',
    merge_rows "," max_9 rows_a12 initial = (Raise e, st')
    ∧ (Forall (bad_row max_9) rows_a12 → e = IndexError ∧ stdout_lines st' = []).
Proof.
  apply (out_of_range_index_is_fatal "," max_9 rows_a12).
  apply Exists_cons_hd. exists 9%nat. split; [|simpl; lia].
  vm_compute. reflexivity.
Defined.

Example merge_out_of_range :
  op_merge (Args "," ["9:max"]) rows_a12 initial
  = (Raise IndexError, MState (Some ["a"; "1"]) ∅ []).
Proof. vm_compute. reflexivity. Qed.

Definition seven : @pyfloat instance := Q2Qc 7.

Lemma stdev_of_one_value_witness :
  ∃ f, dict_get fcn_set "stdev" = Some f
       ∧ f ["7"] = statistics_stdev [seven; seven]
       ∧ (∀ q, exact seven = Some q →
               f ["7"] = Ok (VFloat fzero) ∧ py_str (VFloat fzero) = "0.0")
       ∧ (∀ l xs, (2 ≤ length l)%nat →
                  Forall2 (λ v x, float_of_str v = Some x) l xs →
                  f l = statistics_stdev xs).
Proof.
  apply (stdev_of_one_value "7" seven).
  vm_compute. reflexivity.
Defined.

(** C6, as the claim has it: [float] accepts the text [nan], and on a
    group of that one value the [stdev] reduction raises, so the run does
    not print a zero. *)
Lemma stdev_of_nan_fails :
  stdout_lines
    (snd (op_merge (H:=nan_float.instance) (Args "," ["1:stdev"])
            [["a"; "nan"]] initial))
  ≠ ["a,0.0"].
Proof. vm_compute. discriminate. Qed.

Example merge_stdev_of_nan :
  op_merge (H:=nan_float.instance) (Args "," ["1:stdev"]) [["a"; "nan"]] initial
  = (Raise AttributeError, MState (Some ["a"]) {[1%nat := ["nan"]]} []).
Proof. vm_compute. reflexivity. Qed.

Example merge_stdev_of_one_value :
  stdout_lines (snd (op_merge (Args "," ["1:stdev"]) [["a"; "7"]] initial))
  = ["a,0.0"].
Proof. vm_compute. reflexivity. Qed.


Example merge_unknown_function rows :
  stdout_lines (snd (op_merge (Args "," ["0:avg"]) rows initial))
  = ["no such field:function operation: avg"].
Proof. reflexivity. Qed.

Example merge_malformed_spec rows :
  stdout_lines (snd (op_merge (Args "," ["0:sum"; "x"]) rows initial))
  = ["unable to interpret field:function x"].
Proof. reflexivity. Qed.

Definition run_first_2 : mstate :=
  snd (merge_rows "," first_2 rows_abc initial).

Lemma run_first_2_returns :
  merge_rows "," first_2 rows_abc initial = (Ok tt, run_first_2).
Proof. vm_compute. reflexivity. Defined.

(** An instance of the reader, for text without quote characters and
    carriage returns and a delimiter of one character: the text is cut into
    lines at the newlines, a line is cut into fields at the delimiters, and
    an empty line is a row without fields.  [plain_strip] removes the white
    space of ASCII at both ends.  It serves to evaluate the development on
    concrete text. *)
Definition text_lines (text : string) : list string :=
  let l := split (ascii_of_nat 10) text in
  match last l with
  | Some EmptyString => removelast l
  | _ => l
  end.

Definition plain_reader (delim text : string)
    : list (list string) * option pyexn :=
  match delim with
  | String c EmptyString =>
      ((λ line, if decide (line = "") then [] else split c line)
         <$> text_lines text, None)
  | _ => ([], Some TypeError)
  end.

Definition is_space (c : ascii) : bool :=
  bool_decide (9 ≤ nat_of_ascii c ≤ 13 ∨ 28 ≤ nat_of_ascii c ≤ 32)%nat.

Fixpoint lstrip (s : string) : string :=
  match s with
  | String c s' => if is_space c then lstrip s' else s
  | EmptyString => ""
  end.

Definition plain_strip (s : string) : string :=
  String.rev (lstrip (String.rev (lstrip s))).

#[export] Instance plain_csv : CsvReader := {|
  csv_reader := plain_reader;
  str_strip := plain_strip;
|}.

Example read_rows_plain :
  read_rows "," ("a, 1 ,10" +:+ newline +:+ newline +:+ "b,,30" +:+ newline)
  = ([["a"; "1"; "10"]; []; ["b"; ""; "30"]], None).
Proof. vm_compute. reflexivity. Qed.

Lemma second_run_on_trailing_fields_witness :
  ∃ st2, merge_text "," first_2 (stdout_text run_first_2) initial = (Ok tt, st2)
         ∧ stdout st2 = stdout run_first_2
         ∧ stdout_lines st2 = stdout_lines run_first_2
         ∧ stdout_text st2 = stdout_text run_first_2.
Proof.
  apply (second_run_on_trailing_fields "," first_2 2 rows_abc run_first_2).
  - reflexivity.
  - constructor; [apply stable_first|constructor].
  - repeat constructor.
  - exact run_first_2_returns.
  - vm_compute. reflexivity.
Defined.

(** The text a run printed is not always read back as the rows printed:
    with [0:first] the row of one empty field is printed as an empty line,
    which is read as a row without fields, and the second run raises. *)
Example second_run_on_empty_line :
  stdout_text (snd (merge_rows "," [(0%nat, fcn_first)] [[""]] initial))
  = newline
  ∧ read_rows "," newline = ([[]], None)
  ∧ fst (merge_text "," [(0%nat, fcn_first)] newline initial)
    = Raise IndexError.
Proof. repeat split; vm_compute; reflexivity. Qed.

(** C4, as the claim has it: with [0:first], the rows [a,1] and [b,1]
    merge into [1,a]; a second run on that row prints [a,1]. *)
Lemma second_run_differs :
  stdout_lines
    (snd (op_merge (Args "," ["0:first"])
            (stdout_rows
               (snd (op_merge (Args "," ["0:first"])
                       [["a"; "1"]; ["b"; "1"]] initial)))
            initial))
  ≠ stdout_lines
      (snd (op_merge (Args "," ["0:first"]) [["a"; "1"]; ["b"; "1"]] initial)).
Proof. vm_compute. discriminate. Qed.

Example merge_twice :
  stdout_lines
    (snd (op_merge (Args "," ["0:first"]) [["a"; "1"]; ["b"; "1"]] initial))
  = ["1,a"]
  ∧ stdout_lines (snd (op_merge (Args "," ["0:first"]) [["1"; "a"]] initial))
    = ["a,1"].
Proof. split; vm_compute; reflexivity. Qed.

(** ** Concrete runs of the other properties *)

(** An instance of [int] on strings: decimal numerals with an optional
    sign.  It serves to evaluate [op_pick] and [op_sort] on concrete
    rows. *)
Definition simple_int (s : string) : option Z :=
  let '(neg, s1) :=
    match s with
    | String "-" r => (true, r)
    | String "+" r => (false, r)
    | _ => (false, s)
    end in
  let '(g, r) := span is_digit s1 in
  if decide (g ≠ "" ∧ r = "") then
    Some (if neg : bool then - Z.of_nat (int_of_digits g)
          else Z.of_nat (int_of_digits g))%Z
  else None.

Lemma ltb_ordered (X : Qc → Prop) :
  sort.float_ordered (H:=instance) ltb X.
Proof.
  unfold ltb. split.
  - intros x y _ _ Hxy%bool_decide_eq_true. apply bool_decide_eq_false.
    apply Qcle_not_lt, Qclt_le_weak, Hxy.
  - intros x y z _ _ _ Hxy%bool_decide_eq_false Hyz%bool_decide_eq_false.
    apply bool_decide_eq_false, Qcle_not_lt.
    apply Qcnot_lt_le in Hxy, Hyz. by eapply Qcle_trans.
Qed.

Definition rows_a : list (list string) := [["a"; "1"; "10"]; ["a"; "1"; "20"]].
Definition rows_b : list (list string) := [["b"; "2"; "30"]].

Lemma merge_rows_app_witness :
  ∃ st, merge_rows "," sum_2 (rows_a ++ rows_b) initial = (Ok tt, st)
        ∧ stdout st = stdout (snd (merge_rows "," sum_2 rows_a initial))
                      ++ stdout (snd (merge_rows "," sum_2 rows_b initial)).
Proof.
  apply (merge_rows_app "," sum_2 rows_a rows_b).
  - vm_compute. reflexivity.
  - vm_compute. reflexivity.
  - vm_compute. discriminate.
Defined.


Definition sum_1 : list (nat * reduction) := [(1, numberify builtin_sum)].
Definition rows_axc : list (list string) :=
  [["a"; "1"]; ["b"; "x"]; ["c"; "2"]].

Lemma merge_rows_stops_at_failing_flush_witness :
  ∃ st', merge_rows "," sum_1 rows_axc initial = (Raise ValueError, st')
         ∧ Forall2 (λ g line, flush_row sum_1 g = Ok line)
                   [[["a"; "1"]]] (stdout_rows st')
         ∧ stdout st' = Joined "," <$> stdout_rows st'.
Proof.
  apply (merge_rows_stops_at_failing_flush "," sum_1 rows_axc
           [[["a"; "1"]]] [["b"; "x"]] [[["c"; "2"]]] ValueError).
  - apply (bool_decide_unpack _). vm_compute. exact I.
  - vm_compute. reflexivity.
  - constructor; [|constructor]. eexists. vm_compute. reflexivity.
  - vm_compute. reflexivity.
Defined.

Example merge_non_numeric :
  op_merge (Args "," ["1:sum"]) rows_axc initial
  = (Raise ValueError,
     MState (Some ["b"]) {[1%nat := ["x"]]} [Joined "," ["a"; "1.0"]]).
Proof. vm_compute. reflexivity. Qed.

Lemma numeric_reductions_parse_first_witness :
  ∃ g, dict_get fcn_set "median" = Some (numberify g)
       ∧ (∀ l, Exists (λ v, float_of_str v = None) l →
               numberify g l = Raise ValueError)
       ∧ (∀ l xs, Forall2 (λ v x, float_of_str v = Some x) l xs →
                  numberify g l = g xs).
Proof.
  apply (numeric_reductions_parse_first "median"). vm_compute.
  repeat constructor.
Defined.

Lemma ff_accepts_witness :
  ∃ f, dict_get fcn_set "max" = Some f
       ∧ (∀ g1, g1 ≠ "" → all_digits g1 →
                (String.length g1 ≤ int_max_str_digits)%nat →
                ff (g1 +:+ ":" +:+ "max") initial
                = (Ok (int_of_digits g1, f), initial))
       ∧ (∀ n : nat,
            (String.length (pretty n) ≤ int_max_str_digits)%nat →
            ff (pretty n +:+ ":" +:+ "max") initial = (Ok (n, f), initial)).
Proof.
  apply (ff_accepts "max" initial). vm_compute. repeat constructor.
Defined.



(** Pick. *)

Example pick_abc :
  stdout_lines (snd (op_pick simple_int (PickArgs "2,0" ",") rows_abc initial))
  = ["10,a"; "20,a"; "30,b"].
Proof. vm_compute. reflexivity. Qed.

Example pick_from_the_end :
  stdout_lines (snd (op_pick simple_int (PickArgs "-1,-3" ";") rows_abc initial))
  = ["10;a"; "20;a"; "30;b"].
Proof. vm_compute. reflexivity. Qed.

Example pick_short_row :
  op_pick simple_int (PickArgs "1" ",") [["a"; "b"]; ["c"]; ["d"; "e"]] initial
  = (Raise IndexError, MState None ∅ [Joined "," ["b"]]).
Proof. vm_compute. reflexivity. Qed.

Example pick_default_fields :
  op_pick simple_int (PickArgs "" ",") rows_abc initial
  = (Raise ValueError, initial).
Proof. vm_compute. reflexivity. Qed.

Lemma pick_of_pick_witness :
  csv_rows_text ","
    (stdout_text (snd (csv_rows rows_abc (pick_row "," [2; 0]%Z) initial)))
    (pick_row "," [-1]%Z) initial
  = csv_rows rows_abc (pick_row "," [0]%Z) initial.
Proof.
  apply (pick_of_pick "," [2; 0]%Z [-1]%Z [0]%Z rows_abc).
  - vm_compute. reflexivity.
  - vm_compute. reflexivity.
  - vm_compute. reflexivity.
Defined.

(** Sort. *)

Definition rows_sort : list (list string) :=
  [["b"; "x"; "2"]; ["a"; "y"; "10"]; ["a"; "z"; "2"]].

Example sort_as_text :
  stdout_lines
    (snd (sort.op_sort (H:=instance) simple_int ltb (sort.Args "," ["2"]) rows_sort initial))
  = ["a,y,10"; "b,x,2"; "a,z,2"].
Proof. vm_compute. reflexivity. Qed.

Example sort_as_float :
  stdout_lines
    (snd (sort.op_sort (H:=instance) simple_int ltb (sort.Args "," ["2:float"]) rows_sort
            initial))
  = ["b,x,2"; "a,z,2"; "a,y,10"].
Proof. vm_compute. reflexivity. Qed.

(** The last field given is the one the lines are ordered by. *)
Example sort_two_fields :
  stdout_lines
    (snd (sort.op_sort (H:=instance) simple_int ltb (sort.Args "," ["2:int"; "0"]) rows_sort
            initial))
  = ["a,z,2"; "a,y,10"; "b,x,2"].
Proof. vm_compute. reflexivity. Qed.

Example sort_bad_value :
  sort.op_sort (H:=instance) simple_int ltb (sort.Args "," ["1:int"]) rows_sort initial
  = (Raise ValueError, initial).
Proof. vm_compute. reflexivity. Qed.

Definition by_0_then_2 : list (nat * sort.key_type) :=
  [(0%nat, sort.KStr); (2%nat, sort.KFloat)].

Definition sorted_rows_sort : mstate :=
  snd (sort.sort_rows (H:=instance) simple_int ltb "," by_0_then_2 rows_sort initial).

Lemma sorted_rows_sort_returns :
  sort.sort_rows (H:=instance) simple_int ltb "," by_0_then_2 rows_sort initial
  = (Ok tt, sorted_rows_sort).
Proof. vm_compute. reflexivity. Defined.

Lemma sort_rows_order_witness :
  StronglySorted (sort.order_after (H:=instance) simple_int ltb by_0_then_2)
                 (stdout_rows sorted_rows_sort).
Proof.
  apply (sort.sort_rows_order (H:=instance) simple_int ltb "," by_0_then_2 rows_sort).
  - intros f _ _. apply ltb_ordered.
  - exact sorted_rows_sort_returns.
Defined.

(** Under [1:float] the texts [1.0] and [1] have the same key. *)
Definition rows_tied : list (list string) :=
  [["b"; "1.0"]; ["a"; "1"]; ["c"; "0"]].

Definition by_1_float : list (nat * sort.key_type) := [(1%nat, sort.KFloat)].

Definition sorted_rows_tied : mstate :=
  snd (sort.sort_rows (H:=instance) simple_int ltb "," by_1_float rows_tied
         initial).

Lemma sorted_rows_tied_returns :
  sort.sort_rows (H:=instance) simple_int ltb "," by_1_float rows_tied initial
  = (Ok tt, sorted_rows_tied).
Proof. vm_compute. reflexivity. Defined.

Example sort_tied :
  stdout_lines sorted_rows_tied = ["c,0"; "b,1.0"; "a,1"].
Proof. vm_compute. reflexivity. Qed.

Lemma sort_rows_stable_witness :
  filter (sort.tied (H:=instance) simple_int ltb by_1_float ["b"; "1.0"])
         (stdout_rows sorted_rows_tied)
  = filter (sort.tied (H:=instance) simple_int ltb by_1_float ["b"; "1.0"])
           rows_tied.
Proof.
  apply (sort.sort_rows_stable (H:=instance) simple_int ltb "," by_1_float
           rows_tied).
  - intros f _ _. apply ltb_ordered.
  - exact sorted_rows_tied_returns.
  - constructor.
Defined.

Definition rows_in_order : list (list string) :=
  [["a"; "1"]; ["a"; "2"]; ["b"; "2"]].

Lemma sort_rows_of_sorted_witness :
  sort.sort_rows (H:=instance) simple_int ltb ","
    [(0%nat, sort.KStr); (1%nat, sort.KInt)] rows_in_order initial
  = (Ok tt, MState None ∅ (Joined "," <$> rows_in_order)).
Proof.
  apply (sort.sort_rows_of_sorted (H:=instance) simple_int ltb).
  - repeat (first [apply Forall_nil_2 | apply Forall_cons_2]);
      eexists; reflexivity.
  - repeat (first [apply SSorted_nil | apply SSorted_cons
                   | apply Forall_nil_2 | apply Forall_cons_2]);
      vm_compute; reflexivity.
Defined.

Lemma ff_types_witness :
  ((String.length "3" ≤ int_max_str_digits)%nat →
   sort.ff "3" initial = (Ok (int_of_digits "3", sort.KStr), initial)
   ∧ sort.ff ("3" +:+ ":string") initial
     = (Ok (int_of_digits "3", sort.KStr), initial)
   ∧ sort.ff ("3" +:+ ":float") initial
     = (Ok (int_of_digits "3", sort.KFloat), initial)
   ∧ sort.ff ("3" +:+ ":int") initial
     = (Ok (int_of_digits "3", sort.KInt), initial))
  ∧ ∀ t, t ≠ "" →
         Forall (λ c, is_lower c = true) (list_ascii_of_string t) →
         t ∉ ["string"; "float"; "int"] →
         sort.ff ("3" +:+ ":" +:+ t) initial
         = (Raise (SystemExit 1),
            printed initial (Text ("unknown type for field/type pair: "
                                   +:+ "3" +:+ ":" +:+ t))).
Proof.
  apply (sort.ff_types "3" initial).
  - discriminate.
  - repeat constructor.
Defined.
